(** * A shallow embedding of [main.py], the translation helper

    The script is a Streamlit page: every click re-runs it from the top
    against the persistent [st.session_state].  The embedding keeps that
    shape.  One run of the script is a function from the widget values
    (the two identity fields, the selected entry, the answer box and the
    button that fired) and the pair of session state and spreadsheet to
    the new pair, together with the messages the run displays.

    External collaborators are kept as the code sees them:
    - the sentence-embedding model and [util.pytorch_cos_sim] are section
      variables ([embed], [cos_sim]);
    - Python floats are IEEE binary64 numbers, Rocq's primitive [float];
    - Python [str] values are sequences of Unicode code points;
    - the spreadsheet is an append-only list of rows, and whether a call
      of [append_row] raises is part of the event. *)

From Stdlib Require Import Floats.
From stdpp Require Import strings gmap list pretty.

Local Open Scope Z_scope.

(** ** Python strings *)

Module PyStr.

(** A [str] is a sequence of code points. *)
Abbreviation str := (list N).

(** A literal of the source restricted to ASCII. *)
Definition lit (s : string) : str :=
  (λ a, Ascii.N_of_ascii a) <$> String.list_ascii_of_string s.

(** [str.isspace] on one code point, as CPython's
    [_PyUnicode_IsWhitespace]. *)
Definition is_space (c : N) : bool :=
  ((9 <=? c) && (c <=? 13)
   || (28 <=? c) && (c <=? 32)
   || (c =? 133) || (c =? 160) || (c =? 5760)
   || (8192 <=? c) && (c <=? 8202)
   || (c =? 8232) || (c =? 8233) || (c =? 8239) || (c =? 8287)
   || (c =? 12288))%N.

(** [s.lstrip()] *)
Fixpoint lstrip (s : str) : str :=
  match s with
  | [] => []
  | c :: s' => if is_space c then lstrip s' else s
  end.

(** [s.rstrip()] *)
Definition rstrip (s : str) : str := reverse (lstrip (reverse s)).

(** [s.strip()] *)
Definition strip (s : str) : str := rstrip (lstrip s).

(** [s.strip() == ""] *)
Definition blank (s : str) : bool := bool_decide (strip s = []).

End PyStr.
Import PyStr.

(** ** Python floats *)

Module PyFloat.

(** [float(n)] for a Python [int]: the nearest binary64 number. *)
Definition of_int (n : Z) : float :=
  SF2Prim (binary_normalize prec emax n 0 false).

(** [x >= y] *)
Definition ge (x y : float) : bool := (y <=? x)%float.

(** The builtin [sum] over a list of floats as CPython up to 3.11
    computes it: accumulation from the left, starting at [0], each
    addition rounded to nearest. (CPython 3.12 and later also carry a
    correction term for the rounding errors, which can change the last
    bit of the result.) *)
Definition sum (l : list float) : float := foldl PrimFloat.add 0%float l.

(** [sum(l) / len(l)] *)
Definition mean (l : list float) : float :=
  (sum l / of_int (Z.of_nat (length l)))%float.

(** *** Fixed-point formatting, [f"{x:.df}"]

    CPython rounds the exact binary value to [d] decimals, halfway
    cases to even. The exact value of a finite float is [m * 2^e]. *)

Definition round_half_even (num den : Z) : Z :=
  let q := num / den in
  match 2 * (num mod den) ?= den with
  | Lt => q
  | Gt => q + 1
  | Eq => if Z.even q then q else q + 1
  end.

(** The code point of a decimal digit. *)
Definition digit (n : Z) : N := (48 + Z.to_N n)%N.

(** The [d] low-order decimal digits of [n], most significant first. *)
Fixpoint fixed_digits (d : nat) (n : Z) : str :=
  match d with
  | O => []
  | S d' => fixed_digits d' (n / 10) ++ [digit (n mod 10)]
  end.

Definition sign (s : bool) : str := if s then lit "-" else [].

Definition fraction (d : nat) (n : Z) : str :=
  match d with
  | O => []
  | S _ => lit "." ++ fixed_digits d n
  end.

(** A magnitude scaled by [10^d] and rounded to an integer. *)
Definition scaled (d : nat) (m : positive) (e : Z) : Z :=
  let p := 10 ^ Z.of_nat d in
  if 0 <=? e then Z.pos m * 2 ^ e * p
  else round_half_even (Z.pos m * p) (2 ^ (- e)).

Definition format_f (d : nat) (x : float) : str :=
  let p := 10 ^ Z.of_nat d in
  match Prim2SF x with
  | S754_nan => lit "nan"
  | S754_infinity s => sign s ++ lit "inf"
  | S754_zero s => sign s ++ lit "0" ++ fraction d 0
  | S754_finite s m e =>
      let n := scaled d m e in
      sign s ++ lit (pretty (Z.to_N (n / p))) ++ fraction d (n mod p)
  end.

(** A string with exactly [d] decimal places: an optional sign, an
    integer part, a point and [d] digits. *)
Definition is_digit (c : N) : bool := ((48 <=? c) && (c <=? 57))%N.

Definition has_decimals (d : nat) (s : str) : Prop :=
  ∃ ip fp : str,
    (s = ip ++ lit "." ++ fp ∨ s = lit "-" ++ ip ++ lit "." ++ fp)
    ∧ ip ≠ []
    ∧ Forall (λ c, is_digit c = true) ip
    ∧ length fp = d
    ∧ Forall (λ c, is_digit c = true) fp.

(** Neither NaN nor an infinity. *)
Definition finite (x : float) : bool :=
  match Prim2SF x with
  | S754_nan | S754_infinity _ => false
  | _ => true
  end.

End PyFloat.
Import PyFloat.

(** ** What a rendering says

    The other direction of [f"{x:.df}"]: the number a string denotes,
    and what it takes for a string to be the rendering of a float. None
    of this is used by the script; the properties of the formatting are
    stated against it. *)

Module Rendering.







End Rendering.

(** ** Tensor reductions

    [scores.argmax()] and [scores.max()] over the flattened tensor, two
    separate reductions. As PyTorch documents them, of several maximal
    values [argmax] returns the index of the first, and a NaN propagates
    through both: it counts as greater than every number and, once
    taken, stays. Two different elements that compare equal are zeros of
    opposite sign; of these [max] returns the later, which is what the
    reduction gives on the tensor [0.0, -0.0], so the value of [max]
    need not be the very element [argmax] points at. *)

Module Torch.

Definition takes (best x : float) : bool :=
  negb (is_nan best) && (is_nan x || (best <? x)%float).

(** One reduction pass: index and value of the running best, where
    [i] is the index of the head of the remaining elements. *)
Fixpoint reduce_max (bi : nat) (b : float) (i : nat) (l : list float)
  : nat * float :=
  match l with
  | [] => (bi, b)
  | x :: l' =>
      if takes b x then reduce_max i x (S i) l'
      else reduce_max bi b (S i) l'
  end.

(** Both reductions raise on an empty tensor. *)
Definition argmax (l : list float) : option nat :=
  match l with
  | [] => None
  | x :: l' => Some (fst (reduce_max 0 x 1 l'))
  end.

(** The greater of the running maximum and the next element; the next
    element when the two compare equal. *)
Definition max_combine (acc x : float) : float :=
  if is_nan acc then acc
  else if is_nan x then x
  else if (x <? acc)%float then acc
  else x.

Definition max (l : list float) : option float :=
  match l with
  | [] => None
  | x :: l' => Some (foldl max_combine x l')
  end.

(** A tensor of numbers. *)
Definition no_nan (l : list float) : Prop :=
  Forall (λ x, is_nan x = false) l.

(** [m] at index [j] is the first maximum of [xs]: nothing in [xs]
    exceeds it and everything before it is strictly smaller. *)
Definition first_max (xs : list float) (j : nat) (m : float) : Prop :=
  xs !! j = Some m
  ∧ (∀ k x, xs !! k = Some x → (x <=? m)%float = true)
  ∧ (∀ k x, (k < j)%nat → xs !! k = Some x → (x <? m)%float = true).

End Torch.

(** ** Reference data *)

(** One record of [data/translations.json]; the key [alternatives] may
    be absent. *)
Record Entry := {
  japanese : str;
  english : str;
  alternatives : option (list str);
}.

(** [entry.get("alternatives", [])] *)
Definition get_alternatives (e : Entry) : list str :=
  default [] (alternatives e).

(** [{entry["japanese"]: entry for entry in translations}]: the entries
    are stored one after the other, in file order. *)
Definition japanese_to_entry (translations : list Entry) : gmap str Entry :=
  foldl (λ d entry, <[japanese entry := entry]> d) ∅ translations.

(** ** Session state, spreadsheet and messages *)

(** [THRESHOLD = 0.80], the passing score. *)
#[warnings="-inexact-float"]
Definition THRESHOLD : float := 0.80%float.

Record SessionState := {
  last_score : option float;
  last_variant : option str;
  scores : list float;
  attempted_questions : Z;
}.

(** The state a fresh session is initialised with. *)
Definition initial_state : SessionState :=
  {| last_score := None; last_variant := None;
     scores := []; attempted_questions := 0 |}.

(** The two states of the session: a score is cached by a try and not
    yet consumed by a submit, or none is. *)
Inductive Phase := Idle | Scored.

Definition phase (st : SessionState) : Phase :=
  match last_score st with
  | None => Idle
  | Some _ => Scored
  end.

(** One appended row of the spreadsheet. *)
Record Row := {
  row_timestamp : str;
  row_name : str;
  row_number : str;
  row_average : str;
  row_pass_fail : str;
  row_questions : Z;
}.

(** The session state together with the spreadsheet: [None] when
    [get_gsheet] returned [None], otherwise the rows appended so far. *)
Record World := {
  session : SessionState;
  sheet : option (list Row);
}.

(** What a run displays. [Uncaught] is an exception that escapes the
    script. *)
Inductive Msg :=
| Warning (text : str)
| Success (text : str)
| Error (text : str)
| Markdown (text : str)
| Uncaught.

(** A run labels the attempt as passing when it displays a success box. *)
Definition is_success (m : Msg) : bool :=
  match m with
  | Success _ => true
  | _ => false
  end.

Definition labelled_passing (msgs : list Msg) : bool := existsb is_success msgs.

Inductive Button := NoClick | TryClick | SubmitClick | FinishClick.

#[global] Instance Button_eq_dec : EqDecision Button.
Proof. solve_decision. Defined.

(** The widget values of one run, the clock reading and, for a run that
    reaches [append_row], the text of the exception it raises if any. *)
Record Event := {
  button : Button;
  student_name : str;
  student_number : str;
  selected_japanese : str;
  user_input : str;
  now : str;
  append_error : option str;
}.

(** ** The script *)

Section Script.

(** The embedding model and the cosine similarity of two embeddings. *)
Context {Tensor : Type}.
Variable embed : str → Tensor.
Variable cos_sim : Tensor → Tensor → float.

(** [model.encode(sentences, convert_to_tensor=True)] *)
Definition encode (sentences : list str) : list Tensor :=
  embed <$> sentences.

(** [util.pytorch_cos_sim(a, b)] for one embedding against several. *)
Definition pytorch_cos_sim (a : Tensor) (b : list Tensor) : list float :=
  cos_sim a <$> b.

(** The cosine similarity of a candidate and a variant. *)
Definition similarity (candidate variant : str) : float :=
  cos_sim (embed candidate) (embed variant).

(** [None] stands for a raised exception. *)
Definition compute_score_and_best (user_text : str) (variants : list str)
  : option (float * str) :=
  match encode (user_text :: variants) with
  | [] => None
  | e0 :: rest =>
      let scores := pytorch_cos_sim e0 rest in
      best_idx ← Torch.argmax scores;
      best_score ← Torch.max scores;
      best_variant ← variants !! best_idx;
      Some (best_score, best_variant)
  end.

(** [[entry["english"]] + entry.get("alternatives", [])] *)
Definition all_variants (entry : Entry) : list str :=
  english entry :: get_alternatives entry.

(** The block under the "Try Translation" button. *)
Definition try_translation (entry : Entry) (ev : Event) (w : World)
  : World * list Msg :=
  if blank (user_input ev) then
    (w, [Warning (lit "Please enter a translation before trying.")])
  else
    match compute_score_and_best (user_input ev) (all_variants entry) with
    | None => (w, [Uncaught])
    | Some (best_score, best_variant) =>
        let attempted := attempted_questions (session w) + 1 in
        ({| session :=
              {| last_score := Some best_score;
                 last_variant := Some best_variant;
                 scores := scores (session w);
                 attempted_questions := attempted |};
            sheet := sheet w |},
         [Markdown (lit "**Questions attempted:** " ++ lit (pretty attempted));
          if ge best_score THRESHOLD then
            Success ([9989%N] ++ lit " Good enough! Score: "
                     ++ format_f 2 best_score)
          else
            Warning ([9888%N; 65039%N] ++ lit " Not quite there yet. Score: "
                     ++ format_f 2 best_score)])
    end.

(** The block under the "Submit this translation" button. *)
Definition submit_translation (entry : Entry) (ev : Event) (w : World)
  : World * list Msg :=
  if blank (student_name ev) || blank (student_number ev) then
    (w, [Warning (lit "Please enter your name and student number before submitting.")])
  else if blank (user_input ev) then
    (w, [Warning (lit "Please enter a translation before submitting.")])
  else
    let computed :=
      match last_score (session w) with
      | None =>
          fst <$> compute_score_and_best (user_input ev) (all_variants entry)
      | Some cached => Some cached
      end in
    match computed with
    | None => (w, [Uncaught])
    | Some best_score =>
        ({| session :=
              {| last_score := None;
                 last_variant := None;
                 scores := scores (session w) ++ [best_score];
                 attempted_questions := attempted_questions (session w) |};
            sheet := sheet w |},
         [Success ([9989%N] ++ lit " Translation score recorded locally: "
                   ++ format_f 2 best_score)])
    end.

(** The block under the "Finish Session" button. *)
Definition finish_session (ev : Event) (w : World) : World * list Msg :=
  if blank (student_name ev) || blank (student_number ev) then
    (w, [Warning (lit "Please enter your name and student number before finishing session.")])
  else
    match scores (session w) with
    | [] => (w, [Warning (lit "No scores recorded this session.")])
    | _ :: _ =>
        let average_score := mean (scores (session w)) in
        let number_of_questions := Z.of_nat (length (scores (session w))) in
        match sheet w with
        | None => (w, [Error (lit "Google Sheet not available. Submission failed.")])
        | Some rows =>
            match append_error ev with
            | Some e =>
                (w, [Error (lit "Failed to save your session summary: " ++ e)])
            | None =>
                let row :=
                  {| row_timestamp := now ev;
                     row_name := student_name ev;
                     row_number := student_number ev;
                     row_average := format_f 4 average_score;
                     row_pass_fail :=
                       if ge average_score THRESHOLD then lit "Pass"
                       else lit "Fail";
                     row_questions := number_of_questions |} in
                ({| session :=
                      {| last_score := last_score (session w);
                         last_variant := last_variant (session w);
                         scores := [];
                         attempted_questions := 0 |};
                    sheet := Some (rows ++ [row]) |},
                 [Success ([127937%N] ++ lit " Session finished! Average score "
                           ++ format_f 2 average_score ++ lit " submitted.")])
            end
        end
    end.

(** One run of the script. With no reference data the run stops before
    any widget is drawn; the selected sentence is looked up in the map
    before the buttons are examined. *)
Definition script (translations : list Entry) (ev : Event) (w : World)
  : World * list Msg :=
  let d := japanese_to_entry translations in
  if bool_decide (d = ∅) then
    (w, [Warning (lit "No translation data found.")])
  else
    match d !! selected_japanese ev with
    | None => (w, [Uncaught])
    | Some entry =>
        match button ev with
        | NoClick => (w, [])
        | TryClick => try_translation entry ev w
        | SubmitClick => submit_translation entry ev w
        | FinishClick => finish_session ev w
        end
    end.

(** A session is a sequence of runs from the initial state. *)
Definition start (sh : option (list Row)) : World :=
  {| session := initial_state; sheet := sh |}.

Definition run (translations : list Entry) (evs : list Event) (w : World)
  : World :=
  foldl (λ w ev, fst (script translations ev w)) w evs.

End Script.

(** ** Observing a session

    What an onlooker can count without looking inside the handlers: the
    clicks of each button, the values by which [scores] grew at a submit,
    and whether a run appended a row to the spreadsheet, which ends the
    session and starts the counts afresh. *)

#[global] Instance Row_eq_dec : EqDecision Row.
Proof. solve_decision. Defined.

(** The counts of the current session: the try clicks, those of them
    whose answer was not blank, the submit clicks, and the values the
    submits appended to [scores], oldest first. *)
Record Tally := {
  try_events : nat;
  tries_accepted : nat;
  submit_events : nat;
  submitted : list float;
}.

Definition empty_tally : Tally :=
  {| try_events := 0; tries_accepted := 0; submit_events := 0; submitted := [] |}.

(** The run from [w] to [w'] appended the row [r]. *)
Definition appends_row (w w' : World) (r : Row) : Prop :=
  ∃ rows, sheet w = Some rows ∧ sheet w' = Some (rows ++ [r]).

(** The identity fields and the answer box pass the checks of a submit. *)
Definition submit_valid (ev : Event) : bool :=
  negb (blank (student_name ev)) && negb (blank (student_number ev))
  && negb (blank (user_input ev)).

(** The identity fields and the recorded scores pass the checks of a
    finish. *)
Definition finish_valid (ev : Event) (w : World) : bool :=
  negb (blank (student_name ev)) && negb (blank (student_number ev))
  && negb (bool_decide (scores (session w) = [])).

(** The summary of the session in [w], as a finish at [ev] words it. *)
Definition summary_row (ev : Event) (w : World) : Row :=
  {| row_timestamp := now ev;
     row_name := student_name ev;
     row_number := student_number ev;
     row_average := format_f 4 (mean (scores (session w)));
     row_pass_fail :=
       if ge (mean (scores (session w))) THRESHOLD then lit "Pass"
       else lit "Fail";
     row_questions := Z.of_nat (length (scores (session w))) |}.

Section Observation.

Context {Tensor : Type}.
Variable embed : str → Tensor.
Variable cos_sim : Tensor → Tensor → float.
Variable translations : list Entry.

(** The selection widget offers the keys of the map only. *)
Definition selectable (ev : Event) : Prop :=
  is_Some (japanese_to_entry translations !! selected_japanese ev).

(** The world after one run. *)
Definition step (ev : Event) (w : World) : World :=
  fst (script embed cos_sim translations ev w).

(** The run changed the spreadsheet. *)
Definition recorded (ev : Event) (w : World) : bool :=
  bool_decide (sheet (step ev w) ≠ sheet w).

(** The counts after the run of [ev] in [w]. *)
Definition tally_step (ev : Event) (w : World) (t : Tally) : Tally :=
  if recorded ev w then empty_tally
  else
    match button ev with
    | TryClick =>
        {| try_events := S (try_events t);
           tries_accepted :=
             if blank (user_input ev) then tries_accepted t
             else S (tries_accepted t);
           submit_events := submit_events t;
           submitted := submitted t |}
    | SubmitClick =>
        {| try_events := try_events t;
           tries_accepted := tries_accepted t;
           submit_events := S (submit_events t);
           submitted :=
             submitted t
             ++ drop (length (scores (session w)))
                     (scores (session (step ev w))) |}
    | _ => t
    end.

(** The counts after the runs of [evs] from [w]. *)
Fixpoint session_tally (evs : list Event) (w : World) (t : Tally) : Tally :=
  match evs with
  | [] => t
  | ev :: evs' => session_tally evs' (step ev w) (tally_step ev w t)
  end.

End Observation.

(** ** A small instance

    A stand-in model for running the script on concrete inputs: a
    sentence is its own embedding, identical sentences have similarity
    one, and any two different sentences one half. *)

Module Demo.

Definition embed (s : str) : str := s.

Definition cos_sim (a b : str) : float :=
  if bool_decide (a = b) then 1%float else 0.5%float.


Definition rice : Entry :=
  {| japanese := [31859%N];
     english := lit "I eat rice";
     alternatives := Some [lit "I am eating rice"; lit "I eat rice"] |}.

Definition translations : list Entry := [rice].

Definition click (b : Button) (text : str) : Event :=
  {| button := b;
     student_name := lit "Aiko";
     student_number := lit "s-17";
     selected_japanese := [31859%N];
     user_input := text;
     now := lit "2024-05-01 09:30:00";
     append_error := None |}.

Definition run (evs : list Event) (sh : option (list Row)) : World :=
  run embed cos_sim translations evs (start sh).

Definition tally (evs : list Event) (sh : option (list Row)) : Tally :=
  session_tally embed cos_sim translations evs (start sh) empty_tally.

Definition next (ev : Event) (w : World) : World :=
  step embed cos_sim translations ev w.

Definition page (ev : Event) (w : World) : World * list Msg :=
  script embed cos_sim translations ev w.

(** A try of the primary translation, a submit after the answer box was
    changed, and a submit with no try before it. *)
Definition lesson : list Event :=
  [click TryClick (lit "I eat rice");
   click SubmitClick (lit "rice");
   click SubmitClick (lit "I ate rice")].

(** A space followed by an ideographic space. *)
Definition spaces : str := [32%N; 12288%N].

(** The rice entry once more, with another translation. *)
Definition rice_again : Entry :=
  {| japanese := [31859%N];
     english := lit "I have rice";
     alternatives := None |}.

Definition bread : Entry :=
  {| japanese := [12497%N; 12531%N];
     english := lit "I eat bread";
     alternatives := Some [] |}.

End Demo.

(** ** Connecting to the spreadsheet

    [get_gsheet] talks to the file system, to Streamlit's secrets and to
    two Google libraries. Each of these calls either returns or raises,
    and what it does is given by the deployment the script runs in. *)

Module Sheets.

(** The outcome of an external call: a value, or the text of the
    exception it raised. *)
Inductive Outcome (A : Type) :=
| Returned (a : A)
| Raised (e : str).

Arguments Returned {A} a.
Arguments Raised {A} e.

(** Sequencing inside the [try] block: the first exception ends it. *)
Definition and_then {A B : Type} (o : Outcome A) (k : A → Outcome B)
  : Outcome B :=
  match o with
  | Returned a => k a
  | Raised e => Raised e
  end.

Section Deployment.

Context {Creds Info Client Worksheet : Type}.

(** What the external calls of [get_gsheet] do. [secrets_get] is
    [st.secrets.get("gcp_service_account")], with [None] for a missing
    or empty table; [open_by_key] includes the [.sheet1] that follows. *)
Record Deployment := {
  listdir : Outcome (list str);
  from_service_account_file : Outcome Creds;
  secrets_get : Outcome (option Info);
  from_service_account_info : Info → Outcome Creds;
  authorize : Creds → Outcome Client;
  open_by_key : Client → Outcome Worksheet;
}.

(** The two lines after the credentials are chosen. *)
Definition connect (env : Deployment) (creds : Creds)
  : Outcome (option Worksheet * list Msg) :=
  and_then (authorize env creds) (λ client,
  and_then (open_by_key env client) (λ worksheet,
  Returned (Some worksheet, []))).

(** The body of the [try] block. *)
Definition get_gsheet_try (env : Deployment)
  : Outcome (option Worksheet * list Msg) :=
  and_then (listdir env) (λ names,
  if bool_decide (lit "credentials.json" ∈ names) then
    and_then (from_service_account_file env) (connect env)
  else
    and_then (secrets_get env) (λ secret,
    match secret with
    | Some info => and_then (from_service_account_info env info) (connect env)
    | None => Returned (None, [Warning (lit "Google credentials not configured.")])
    end)).

(** The sheet object, or [None], and what is displayed. *)
Definition get_gsheet (env : Deployment) : option Worksheet * list Msg :=
  match get_gsheet_try env with
  | Returned result => result
  | Raised e => (None, [Error (lit "Error connecting to Google Sheets: " ++ e)])
  end.

End Deployment.

Arguments Deployment : clear implicits.

End Sheets.

(** A deployment with a local credentials file whose key is refused by
    the spreadsheet service, and with secrets that would work. *)
Module DemoSheets.

Definition refused : Sheets.Deployment str str str str :=
  {| Sheets.listdir := Sheets.Returned [lit "main.py"; lit "credentials.json"];
     Sheets.from_service_account_file := Sheets.Returned (lit "local");
     Sheets.secrets_get := Sheets.Returned (Some (lit "secret"));
     Sheets.from_service_account_info := λ info, Sheets.Returned info;
     Sheets.authorize := λ creds, Sheets.Returned creds;
     Sheets.open_by_key := λ client,
       if bool_decide (client = lit "secret")
       then Sheets.Returned (lit "sheet1")
       else Sheets.Raised (lit "PermissionError") |}.

(** The same deployment with no secrets at all. *)
Definition refused_no_secrets : Sheets.Deployment str str str str :=
  {| Sheets.listdir := Sheets.listdir refused;
     Sheets.from_service_account_file := Sheets.from_service_account_file refused;
     Sheets.secrets_get := Sheets.Raised (lit "FileNotFoundError");
     Sheets.from_service_account_info := λ info, Sheets.Raised (lit "ValueError");
     Sheets.authorize := Sheets.authorize refused;
     Sheets.open_by_key := Sheets.open_by_key refused |}.

End DemoSheets.

(** The number of finish clicks among the events. *)
Definition finish_clicks (evs : list Event) : nat :=
  length (filter (λ ev, button ev = FinishClick) evs).

(** The number of try clicks among the events. *)
Definition try_clicks (evs : list Event) : nat :=
  length (filter (λ ev, button ev = TryClick) evs).

(** A score that is the similarity of some text to a variant of a
    record of the file. *)
Definition reference_score {Tensor : Type}
    (embed : str → Tensor) (cos_sim : Tensor → Tensor → float)
    (translations : list Entry) (s : float) : Prop :=
  ∃ user_text entry variant,
    entry ∈ translations
    ∧ variant ∈ all_variants entry
    ∧ s = similarity embed cos_sim user_text variant.

(** * Properties *)

(** ** Stripping *)

Section Strip.

Implicit Types s : str.

Lemma lstrip_spaces s :
  Forall (λ c, is_space c = true) s → lstrip s = [].
Proof.
  induction 1 as [|c s Hc _ IH]; simpl; [done|]. by rewrite Hc.
Qed.

Lemma lstrip_nil_inv s :
  lstrip s = [] → Forall (λ c, is_space c = true) s.
Proof.
  induction s as [|c s IH]; simpl; [constructor|].
  destruct (is_space c) eqn:Hc; [|discriminate].
  intros Hs. constructor; auto.
Qed.

(** What [lstrip] leaves does not start with a space. *)
Lemma lstrip_head s c s' : lstrip s = c :: s' → is_space c = false.
Proof.
  induction s as [|a s IH]; simpl; [discriminate|].
  destruct (is_space a) eqn:Ha; [exact IH|].
  intros [= <- _]. exact Ha.
Qed.

Lemma strip_spaces s :
  Forall (λ c, is_space c = true) s → strip s = [].
Proof.
  intros Hs. unfold strip, rstrip. by rewrite (lstrip_spaces s Hs).
Qed.

(** A string is blank exactly when all its characters are spaces. *)
Lemma blank_spec s :
  blank s = true ↔ Forall (λ c, is_space c = true) s.
Proof.
  unfold blank. rewrite bool_decide_eq_true. split; [|apply strip_spaces].
  unfold strip, rstrip. intros Hs.
  destruct (lstrip s) as [|c s'] eqn:Hl; [by apply lstrip_nil_inv|].
  exfalso.
  assert (lstrip (reverse (c :: s')) = []) as Hr.
  { rewrite <- (reverse_involutive (lstrip _)), Hs. done. }
  apply lstrip_nil_inv in Hr.
  rewrite Forall_forall in Hr.
  pose proof (Hr c) as Hc.
  rewrite (lstrip_head _ _ _ Hl) in Hc.
  discriminate Hc. rewrite reverse_cons. set_solver.
Qed.

End Strip.

(** ** The lookup map *)

Section Lookup.

Implicit Types (translations : list Entry) (k : str).

Lemma japanese_to_entry_snoc translations entry :
  japanese_to_entry (translations ++ [entry])
  = <[japanese entry := entry]> (japanese_to_entry translations).
Proof. unfold japanese_to_entry. by rewrite foldl_snoc. Qed.

Lemma japanese_to_entry_lookup translations k :
  japanese_to_entry translations !! k
  = last (filter (λ entry, japanese entry = k) translations).
Proof.
  induction translations as [|entry l IH] using rev_ind; [done|].
  rewrite japanese_to_entry_snoc, filter_app, filter_cons, filter_nil.
  destruct (decide (japanese entry = k)) as [<-|Hne].
  - by rewrite lookup_insert_eq, last_snoc.
  - by rewrite lookup_insert_ne, app_nil_r.
Qed.

(** The map is empty only for an empty file. *)
Lemma japanese_to_entry_empty translations :
  japanese_to_entry translations = ∅ ↔ translations = [].
Proof.
  split; [|by intros ->].
  destruct translations as [|e l _] using rev_ind; [done|].
  rewrite japanese_to_entry_snoc. intros H.
  by apply insert_non_empty in H.
Qed.

End Lookup.

(** ** The order of binary64 numbers

    The comparisons of [float] are specified on [spec_float] by a
    lexicographic comparison of sign, exponent and mantissa. *)

Section SpecOrder.

Implicit Types a b c : spec_float.

Ltac compare_cases :=
  change (Pos.compare_cont Eq) with Pos.compare;
  repeat match goal with
    | |- context [Z.compare ?x ?y] => destruct (Z.compare_spec x y)
    | |- context [Pos.compare ?x ?y] => destruct (Pos.compare_spec x y)
    end.

Ltac by_cases :=
  unfold SFeqb, SFleb, SFltb, SFcompare;
  repeat match goal with
    | a : spec_float |- _ => destruct a as [[]|[]| |[] ? ?]
    end;
  try done; compare_cases; simpl; intros; try done; try lia.

Lemma SFeqb_refl a : a ≠ S754_nan → SFeqb a a = true.
Proof. by_cases. Qed.

Lemma SFleb_refl a : a ≠ S754_nan → SFleb a a = true.
Proof. by_cases. Qed.

Lemma SFltb_leb a b : SFltb a b = true → SFleb a b = true.
Proof. unfold SFltb, SFleb. by destruct (SFcompare a b) as [[]|]. Qed.

Lemma SFleb_total a b :
  a ≠ S754_nan → b ≠ S754_nan → SFltb a b = false → SFleb b a = true.
Proof. by_cases. Qed.

Lemma SFleb_ltb_trans a b c :
  SFleb a b = true → SFltb b c = true → SFltb a c = true.
Proof. by_cases. Qed.

Lemma SFleb_trans a b c :
  SFleb a b = true → SFleb b c = true → SFleb a c = true.
Proof. by_cases. Qed.

Lemma SFltb_leb_trans a b c :
  SFltb a b = true → SFleb b c = true → SFltb a c = true.
Proof. by_cases. Qed.

Lemma SFleb_antisym a b :
  SFleb a b = true → SFleb b a = true → SFeqb a b = true.
Proof. by_cases. Qed.

End SpecOrder.

Section FloatOrder.

Implicit Types x y z : float.

Lemma is_nan_false x : is_nan x = false ↔ Prim2SF x ≠ S754_nan.
Proof.
  unfold is_nan. rewrite FloatAxioms.eqb_spec, negb_false_iff. split.
  - intros H Hn. by rewrite Hn in H.
  - apply SFeqb_refl.
Qed.

Lemma leb_refl x : is_nan x = false → (x <=? x)%float = true.
Proof. intros Hx%is_nan_false. rewrite FloatAxioms.leb_spec. by apply SFleb_refl. Qed.

Lemma ltb_leb x y : (x <? y)%float = true → (x <=? y)%float = true.
Proof. rewrite FloatAxioms.ltb_spec, FloatAxioms.leb_spec. apply SFltb_leb. Qed.

Lemma leb_total x y :
  is_nan x = false → is_nan y = false →
  (x <? y)%float = false → (y <=? x)%float = true.
Proof.
  intros Hx%is_nan_false Hy%is_nan_false. rewrite FloatAxioms.ltb_spec, FloatAxioms.leb_spec.
  by apply SFleb_total.
Qed.

Lemma leb_ltb_trans x y z :
  (x <=? y)%float = true → (y <? z)%float = true → (x <? z)%float = true.
Proof. rewrite !FloatAxioms.ltb_spec, FloatAxioms.leb_spec. apply SFleb_ltb_trans. Qed.

Lemma leb_trans x y z :
  (x <=? y)%float = true → (y <=? z)%float = true → (x <=? z)%float = true.
Proof. rewrite !FloatAxioms.leb_spec. apply SFleb_trans. Qed.

Lemma ltb_leb_trans x y z :
  (x <? y)%float = true → (y <=? z)%float = true → (x <? z)%float = true.
Proof.
  rewrite !FloatAxioms.ltb_spec, FloatAxioms.leb_spec. apply SFltb_leb_trans.
Qed.

(** Two numbers each at most the other compare equal. *)
Lemma leb_antisym x y :
  (x <=? y)%float = true → (y <=? x)%float = true → (x =? y)%float = true.
Proof.
  rewrite !FloatAxioms.leb_spec, FloatAxioms.eqb_spec. apply SFleb_antisym.
Qed.

End FloatOrder.

(** ** The reductions find the first maximum *)

Section Reductions.

Import Torch.

Lemma takes_number b x :
  is_nan b = false → is_nan x = false → takes b x = (b <? x)%float.
Proof. unfold takes. by intros -> ->. Qed.

Lemma first_max_singleton x : is_nan x = false → first_max [x] 0 x.
Proof.
  intros Hx. split_and!; [done| |intros; lia].
  intros [|k] y [=]; subst. by apply leb_refl.
Qed.

(** Extending the processed prefix by one element [x]. *)
Lemma first_max_keep pre j m x :
  is_nan m = false → is_nan x = false →
  first_max pre j m → (m <? x)%float = false →
  first_max (pre ++ [x]) j m.
Proof.
  intros Hm Hx (Hj & Hle & Hlt) Hcmp. split_and!.
  - by apply lookup_app_l_Some.
  - intros k y [Hk|[_ Hk]]%lookup_app_Some; [by eapply Hle|].
    apply list_lookup_singleton_Some in Hk as [_ <-].
    by apply leb_total.
  - intros k y Hkj Hk. apply lookup_lt_Some in Hj.
    rewrite lookup_app_l in Hk by lia. by eapply Hlt.
Qed.

Lemma first_max_take pre j m x :
  is_nan x = false →
  first_max pre j m → (m <? x)%float = true →
  first_max (pre ++ [x]) (length pre) x.
Proof.
  intros Hx (Hj & Hle & Hlt) Hcmp. split_and!.
  - by rewrite lookup_app_r, Nat.sub_diag.
  - intros k y [Hk|[_ Hk]]%lookup_app_Some.
    + apply ltb_leb. eapply leb_ltb_trans; [by eapply Hle|done].
    + apply list_lookup_singleton_Some in Hk as [_ <-]. by apply leb_refl.
  - intros k y Hkj Hk. rewrite lookup_app_l in Hk by done.
    eapply leb_ltb_trans; [by eapply Hle|done].
Qed.

Lemma reduce_max_first_max l pre bi b :
  no_nan l → is_nan b = false → first_max pre bi b →
  first_max (pre ++ l)
    (fst (reduce_max bi b (length pre) l))
    (snd (reduce_max bi b (length pre) l)).
Proof.
  revert pre bi b.
  induction l as [|x l IH]; intros pre bi b Hl Hb Hpre; simpl.
  { by rewrite app_nil_r. }
  apply Forall_cons in Hl as [Hx Hl].
  rewrite (takes_number _ _ Hb Hx), cons_middle, app_assoc.
  replace (S (length pre)) with (length (pre ++ [x]))
    by (rewrite length_app; simpl; lia).
  destruct (b <? x)%float eqn:Hcmp.
  - apply IH; [done..|]. by eapply first_max_take.
  - apply IH; [done..|]. by apply first_max_keep.
Qed.

(** On a non-empty tensor of numbers [argmax] returns the index of the
    first maximum. *)
Lemma argmax_first_max l :
  l ≠ [] → no_nan l → ∃ j m, argmax l = Some j ∧ first_max l j m.
Proof.
  destruct l as [|x l]; [done|]. intros _ [Hx Hl]%Forall_cons.
  eexists _, _. split; [done|].
  apply (reduce_max_first_max l [x] 0 x); auto using first_max_singleton.
Qed.

(** Whatever the elements are, [max] returns one of them. *)
Lemma foldl_max_combine_elem l acc : foldl max_combine acc l ∈ acc :: l.
Proof.
  revert acc. induction l as [|x l IH]; intros acc; simpl; [left|].
  destruct (proj1 (elem_of_cons _ _ _) (IH (max_combine acc x))) as [->|Hin].
  - rewrite !elem_of_cons. unfold max_combine.
    destruct (is_nan acc), (is_nan x), (x <? acc)%float; auto.
  - rewrite !elem_of_cons. auto.
Qed.

Lemma max_elem l m : max l = Some m → m ∈ l.
Proof.
  destruct l as [|x l]; [done|]. intros [= <-]. apply foldl_max_combine_elem.
Qed.

(** On numbers the running maximum is a number and bounds both of its
    arguments. *)
Lemma max_combine_number acc x :
  is_nan acc = false → is_nan x = false →
  is_nan (max_combine acc x) = false
  ∧ (acc <=? max_combine acc x)%float = true
  ∧ (x <=? max_combine acc x)%float = true.
Proof.
  intros Hacc Hx. unfold max_combine. rewrite Hacc, Hx.
  destruct (x <? acc)%float eqn:Hcmp.
  - split_and!; [done|by apply leb_refl|by apply ltb_leb].
  - split_and!; [done|by apply leb_total|by apply leb_refl].
Qed.

Lemma foldl_max_combine_bound l acc y :
  is_nan acc = false → no_nan l → y ∈ acc :: l →
  (y <=? foldl max_combine acc l)%float = true.
Proof.
  revert acc y. induction l as [|x l IH]; intros acc y Hacc Hl Hy; simpl.
  { apply list_elem_of_singleton in Hy as ->. by apply leb_refl. }
  apply Forall_cons in Hl as [Hx Hl].
  destruct (max_combine_number acc x Hacc Hx) as (Hm & Hle1 & Hle2).
  assert ((max_combine acc x <=? foldl max_combine (max_combine acc x) l)%float
          = true) as Htop by (apply IH; [done..|left]).
  apply elem_of_cons in Hy as [->|Hy]; [by eapply leb_trans|].
  apply elem_of_cons in Hy as [->|Hy]; [by eapply leb_trans|].
  apply IH; [done..|by right].
Qed.

(** On a non-empty tensor of numbers [max] returns an element that
    nothing in the tensor exceeds. *)
Lemma max_maximum l :
  l ≠ [] → no_nan l →
  ∃ m, max l = Some m ∧ m ∈ l ∧ ∀ y, y ∈ l → (y <=? m)%float = true.
Proof.
  destruct l as [|x l]; [done|]. intros _ [Hx Hl]%Forall_cons.
  eexists. split_and!; [done|apply foldl_max_combine_elem|].
  intros y Hy. by apply foldl_max_combine_bound.
Qed.

End Reductions.

(** ** The scorer *)

Section Scorer.

Context {Tensor : Type}.
Variable embed : str → Tensor.
Variable cos_sim : Tensor → Tensor → float.

Local Abbreviation sim := (similarity embed cos_sim).
Local Abbreviation scorer := (compute_score_and_best embed cos_sim).

(** The flattened tensor of similarities the two reductions run over. *)
Lemma cos_sim_encode user_text variants :
  pytorch_cos_sim cos_sim (embed user_text) (encode embed variants)
  = sim user_text <$> variants.
Proof.
  unfold pytorch_cos_sim, encode. by rewrite <- list_fmap_compose.
Qed.

(** The scorer in terms of the similarities. *)
Lemma compute_score_and_best_eq user_text variants :
  scorer user_text variants
  = (best_idx ← Torch.argmax (sim user_text <$> variants);
     best_score ← Torch.max (sim user_text <$> variants);
     best_variant ← variants !! best_idx;
     Some (best_score, best_variant)).
Proof. rewrite <- cos_sim_encode. reflexivity. Qed.

Lemma reduce_max_index l bi b i :
  (bi < i)%nat → (fst (Torch.reduce_max bi b i l) < i + length l)%nat.
Proof.
  revert bi b i. induction l as [|x l IH]; intros bi b i Hbi; simpl; [lia|].
  destruct (Torch.takes b x).
  - specialize (IH i x (S i)). lia.
  - specialize (IH bi b (S i)). lia.
Qed.

Lemma argmax_index l :
  l ≠ [] → ∃ j, Torch.argmax l = Some j ∧ (j < length l)%nat.
Proof.
  destruct l as [|x l]; [done|]. intros _. eexists. split; [done|].
  pose proof (reduce_max_index l 0 x 1). simpl. lia.
Qed.

Lemma max_is_Some l : l ≠ [] → is_Some (Torch.max l).
Proof. destruct l; [done|]. by eexists. Qed.

(** The scorer raises on no input with at least one variant. *)
Lemma compute_score_and_best_total user_text variants :
  variants ≠ [] → is_Some (scorer user_text variants).
Proof.
  intros Hne. rewrite compute_score_and_best_eq.
  assert (sim user_text <$> variants ≠ []) as Hs.
  { by destruct variants. }
  destruct (argmax_index _ Hs) as (j & -> & Hj).
  destruct (max_is_Some _ Hs) as [m ->].
  rewrite length_fmap in Hj.
  destruct (lookup_lt_is_Some_2 variants j Hj) as [v Hv].
  simpl. rewrite Hv. by eexists.
Qed.

(** C1: for every candidate and every non-empty list of variants whose
    similarities are numbers, the score the scorer returns is the
    maximum of the similarities between the candidate and the variants:
    it is one of them and none exceeds it. The variant it returns is an
    element of the list that attains that maximum (its similarity
    compares equal to the score), and it is the first to do so: every
    variant before it is strictly less similar. *)
Theorem compute_score_and_best_first_max user_text variants :
  variants ≠ [] →
  Torch.no_nan (sim user_text <$> variants) →
  ∃ (i : nat) (best_score : float) (best_variant : str),
    scorer user_text variants = Some (best_score, best_variant)
    ∧ best_score ∈ (sim user_text <$> variants)
    ∧ (∀ v, v ∈ variants →
         (sim user_text v <=? best_score)%float = true)
    ∧ variants !! i = Some best_variant
    ∧ (sim user_text best_variant =? best_score)%float = true
    ∧ (∀ k v, (k < i)%nat → variants !! k = Some v →
         (sim user_text v <? best_score)%float = true).
Proof.
  intros Hne Hnum.
  assert (sim user_text <$> variants ≠ []) as Hs.
  { by destruct variants. }
  destruct (argmax_first_max _ Hs Hnum) as (j & mj & Hj & Hat & Hle & Hlt).
  destruct (max_maximum _ Hs Hnum) as (m & Hm & Hin & Hmax).
  apply list_lookup_fmap_Some_1 in Hat as (v & -> & Hv).
  assert ((sim user_text v <=? m)%float = true) as Hvm.
  { apply Hmax, list_elem_of_lookup. exists j.
    by rewrite list_lookup_fmap, Hv. }
  exists j, m, v. split_and!; try done.
  - rewrite compute_score_and_best_eq, Hj, Hm. simpl. by rewrite Hv.
  - intros w Hw. by apply Hmax, list_elem_of_fmap_2.
  - apply leb_antisym; [done|].
    apply list_elem_of_lookup in Hin as [k Hk]. by apply (Hle k).
  - intros k w Hkj Hk. eapply ltb_leb_trans; [|exact Hvm].
    apply (Hlt k); [done|]. by rewrite list_lookup_fmap, Hk.
Qed.

End Scorer.

(** The scorer on the rice entry, whose primary translation occurs a
    second time among the alternatives: the first occurrence wins. *)
Lemma compute_score_and_best_first_max_rice :
  ∃ (i : nat) (best_score : float) (best_variant : str),
    compute_score_and_best Demo.embed Demo.cos_sim
      (lit "I eat rice") (all_variants Demo.rice)
    = Some (best_score, best_variant)
    ∧ best_score
      ∈ (similarity Demo.embed Demo.cos_sim (lit "I eat rice")
           <$> all_variants Demo.rice)
    ∧ (∀ v, v ∈ all_variants Demo.rice →
         (similarity Demo.embed Demo.cos_sim (lit "I eat rice") v
          <=? best_score)%float = true)
    ∧ all_variants Demo.rice !! i = Some best_variant
    ∧ (similarity Demo.embed Demo.cos_sim (lit "I eat rice") best_variant
       =? best_score)%float = true
    ∧ (∀ k v, (k < i)%nat → all_variants Demo.rice !! k = Some v →
         (similarity Demo.embed Demo.cos_sim (lit "I eat rice") v
          <? best_score)%float = true).
Proof.
  apply (compute_score_and_best_first_max Demo.embed Demo.cos_sim
           (lit "I eat rice") (all_variants Demo.rice)).
  - discriminate.
  - repeat constructor.
Defined.

(** ** The handlers, one run at a time *)

Section Handlers.

Context {Tensor : Type}.
Variable embed : str → Tensor.
Variable cos_sim : Tensor → Tensor → float.
Variable translations : list Entry.

Local Abbreviation scorer := (compute_score_and_best embed cos_sim).
Local Abbreviation on_try := (try_translation embed cos_sim).
Local Abbreviation on_submit := (submit_translation embed cos_sim).
Local Abbreviation page := (script embed cos_sim translations).
Local Abbreviation next := (step embed cos_sim translations).

Implicit Types (ev : Event) (w : World) (entry : Entry).

Lemma all_variants_nonempty entry : all_variants entry ≠ [].
Proof. done. Qed.

(** A run whose selection is in the map reaches the buttons. *)
Lemma script_selected ev w entry :
  japanese_to_entry translations !! selected_japanese ev = Some entry →
  page ev w
  = match button ev with
    | NoClick => (w, [])
    | TryClick => on_try entry ev w
    | SubmitClick => on_submit entry ev w
    | FinishClick => finish_session ev w
    end.
Proof.
  intros Hsel. unfold script. rewrite Hsel.
  rewrite bool_decide_eq_false_2; [done|].
  intros Hempty. by rewrite Hempty, lookup_empty in Hsel.
Qed.

(** Any other run changes nothing. *)
Lemma script_not_selected ev w :
  japanese_to_entry translations !! selected_japanese ev = None →
  next ev w = w.
Proof.
  intros Hsel. unfold step, script. rewrite Hsel. by case_bool_decide.
Qed.

(** *** Try *)

Lemma try_translation_blank entry ev w :
  blank (user_input ev) = true →
  on_try entry ev w
  = (w, [Warning (lit "Please enter a translation before trying.")]).
Proof. unfold try_translation. by intros ->. Qed.

Lemma try_translation_scored entry ev w :
  blank (user_input ev) = false →
  ∃ best_score best_variant,
    scorer (user_input ev) (all_variants entry) = Some (best_score, best_variant)
    ∧ fst (on_try entry ev w)
      = {| session :=
             {| last_score := Some best_score;
                last_variant := Some best_variant;
                scores := scores (session w);
                attempted_questions := attempted_questions (session w) + 1 |};
           sheet := sheet w |}.
Proof.
  intros Hin. unfold try_translation. rewrite Hin.
  destruct (compute_score_and_best_total embed cos_sim (user_input ev)
              (all_variants entry) (all_variants_nonempty entry))
    as [[s v] ->].
  by exists s, v.
Qed.

Lemma try_translation_frame entry ev w :
  scores (session (fst (on_try entry ev w))) = scores (session w)
  ∧ sheet (fst (on_try entry ev w)) = sheet w.
Proof.
  destruct (blank (user_input ev)) eqn:Hin.
  - by rewrite try_translation_blank.
  - destruct (try_translation_scored entry ev w Hin) as (s & v & _ & ->). done.
Qed.

(** *** Submit *)

Lemma submit_translation_invalid entry ev w :
  submit_valid ev = false → ∃ text, on_submit entry ev w = (w, [Warning text]).
Proof.
  unfold submit_valid, submit_translation. intros Hv.
  destruct (blank (student_name ev)), (blank (student_number ev));
    simpl in *; eauto.
  rewrite negb_false_iff in Hv. rewrite Hv. eauto.
Qed.

(** The score a valid submit records: the cached one if there is one,
    otherwise the one the scorer returns. *)
Lemma submit_translation_valid entry ev w :
  submit_valid ev = true →
  ∃ best_score,
    match last_score (session w) with
    | Some cached => best_score = cached
    | None =>
        ∃ best_variant,
          scorer (user_input ev) (all_variants entry)
          = Some (best_score, best_variant)
    end
    ∧ fst (on_submit entry ev w)
      = {| session :=
             {| last_score := None;
                last_variant := None;
                scores := scores (session w) ++ [best_score];
                attempted_questions := attempted_questions (session w) |};
           sheet := sheet w |}.
Proof.
  unfold submit_valid. rewrite !andb_true_iff, !negb_true_iff.
  intros [[Hname Hnumber] Hin].
  unfold submit_translation. rewrite Hname, Hnumber, Hin. simpl.
  destruct (last_score (session w)) as [cached|]; [by exists cached|].
  destruct (compute_score_and_best_total embed cos_sim (user_input ev)
              (all_variants entry) (all_variants_nonempty entry))
    as [[s v] Hs].
  rewrite Hs. simpl. exists s. eauto.
Qed.

Lemma submit_translation_sheet entry ev w :
  sheet (fst (on_submit entry ev w)) = sheet w.
Proof.
  destruct (submit_valid ev) eqn:Hv.
  - by destruct (submit_translation_valid entry ev w Hv) as (s & _ & ->).
  - by destruct (submit_translation_invalid entry ev w Hv) as (text & ->).
Qed.

(** *** Finish *)

Lemma finish_session_invalid ev w :
  finish_valid ev w = false → ∃ text, finish_session ev w = (w, [Warning text]).
Proof.
  unfold finish_valid, finish_session. intros Hv.
  destruct (blank (student_name ev)), (blank (student_number ev));
    simpl in *; eauto.
  rewrite negb_false_iff, bool_decide_eq_true in Hv. rewrite Hv. eauto.
Qed.

(** A finish either changes nothing or appends the summary row and
    resets the scores and the count. *)
Lemma finish_session_cases ev w :
  fst (finish_session ev w) = w
  ∨ ∃ rows,
      sheet w = Some rows
      ∧ append_error ev = None
      ∧ finish_valid ev w = true
      ∧ fst (finish_session ev w)
        = {| session :=
               {| last_score := last_score (session w);
                  last_variant := last_variant (session w);
                  scores := [];
                  attempted_questions := 0 |};
             sheet := Some (rows ++ [summary_row ev w]) |}.
Proof.
  unfold finish_session, finish_valid.
  destruct (blank (student_name ev)), (blank (student_number ev));
    simpl; auto.
  destruct (scores (session w)) as [|s l] eqn:Hs; auto.
  destruct (sheet w) as [rows|] eqn:Hsh; auto.
  destruct (append_error ev) eqn:He; auto.
  right. exists rows. split_and!; try done.
  unfold summary_row. by rewrite Hs.
Qed.

Lemma finish_session_sink_failure ev w :
  sheet w = None ∨ is_Some (append_error ev) →
  fst (finish_session ev w) = w.
Proof.
  intros Hfail.
  destruct (finish_session_cases ev w) as [?|(rows & Hsh & He & _)]; [done|].
  destruct Hfail as [Hnone|[e Herr]]; congruence.
Qed.

End Handlers.

(** ** The session, one event at a time *)

Section Events.

Context {Tensor : Type}.
Variable embed : str → Tensor.
Variable cos_sim : Tensor → Tensor → float.
Variable translations : list Entry.

Local Abbreviation scorer := (compute_score_and_best embed cos_sim).
Local Abbreviation page := (script embed cos_sim translations).
Local Abbreviation next := (step embed cos_sim translations).

Implicit Types (ev : Event) (w : World) (entry : Entry).

Lemma no_self_append w r : ¬ appends_row w w r.
Proof.
  intros (rows & H1 & H2). rewrite H1 in H2. injection H2 as H2.
  apply (f_equal length) in H2. rewrite length_app in H2. simpl in H2. lia.
Qed.

Lemma step_selected ev w entry :
  japanese_to_entry translations !! selected_japanese ev = Some entry →
  next ev w
  = match button ev with
    | NoClick => w
    | TryClick => fst (try_translation embed cos_sim entry ev w)
    | SubmitClick => fst (submit_translation embed cos_sim entry ev w)
    | FinishClick => fst (finish_session ev w)
    end.
Proof.
  intros Hsel. unfold step. rewrite (script_selected _ _ _ _ _ _ Hsel).
  by destruct (button ev).
Qed.

(** A finish click changes nothing, or appends the summary row and
    resets. *)
Lemma step_finish ev w :
  button ev = FinishClick →
  next ev w = w
  ∨ ∃ rows,
      sheet w = Some rows
      ∧ append_error ev = None
      ∧ finish_valid ev w = true
      ∧ next ev w
        = {| session :=
               {| last_score := last_score (session w);
                  last_variant := last_variant (session w);
                  scores := [];
                  attempted_questions := 0 |};
             sheet := Some (rows ++ [summary_row ev w]) |}.
Proof.
  intros Hb.
  destruct (japanese_to_entry translations !! selected_japanese ev)
    as [entry|] eqn:Hsel.
  - rewrite (step_selected _ _ _ Hsel), Hb. apply finish_session_cases.
  - left. by apply script_not_selected.
Qed.

(** Only a finish click touches the spreadsheet. *)
Lemma step_sheet ev w :
  button ev ≠ FinishClick → sheet (next ev w) = sheet w.
Proof.
  intros Hb.
  destruct (japanese_to_entry translations !! selected_japanese ev)
    as [entry|] eqn:Hsel.
  - rewrite (step_selected _ _ _ Hsel).
    destruct (button ev); [done| | |done].
    + apply try_translation_frame.
    + apply submit_translation_sheet.
  - by rewrite script_not_selected.
Qed.

(** A run that appended a row was a valid finish, and the row is the
    summary of the scores recorded until then. *)
Lemma appends_row_inv ev w r :
  appends_row w (next ev w) r →
  button ev = FinishClick
  ∧ r = summary_row ev w
  ∧ scores (session (next ev w)) = []
  ∧ attempted_questions (session (next ev w)) = 0.
Proof.
  intros Happ.
  destruct (decide (button ev = FinishClick)) as [Hb|Hb].
  - destruct (step_finish ev w Hb) as [Hsame|(rows & Hsh & _ & _ & Hnext)].
    + rewrite Hsame in Happ. by apply no_self_append in Happ.
    + destruct Happ as (rows' & Hsh' & Hnew).
      rewrite Hnext in *. simpl in Hnew.
      rewrite Hsh in Hsh'. injection Hsh' as <-.
      injection Hnew as Hnew. apply app_inv_head in Hnew.
      injection Hnew as <-. done.
  - destruct Happ as (rows & Hsh & Hnew).
    rewrite (step_sheet _ _ Hb), Hsh in Hnew.
    injection Hnew as Hnew.
    apply (f_equal length) in Hnew. rewrite length_app in Hnew.
    simpl in Hnew. lia.
Qed.

(** A try click never touches [scores]. *)
Lemma step_try_scores ev w :
  button ev = TryClick → scores (session (next ev w)) = scores (session w).
Proof.
  intros Hb.
  destruct (japanese_to_entry translations !! selected_japanese ev)
    as [entry|] eqn:Hsel.
  - rewrite (step_selected _ _ _ Hsel), Hb. apply try_translation_frame.
  - by rewrite script_not_selected.
Qed.

(** A try click counts an attempt when the answer is not blank. *)
Lemma step_try_attempted ev w :
  button ev = TryClick → selectable translations ev →
  attempted_questions (session (next ev w))
  = if blank (user_input ev) then attempted_questions (session w)
    else attempted_questions (session w) + 1.
Proof.
  intros Hb [entry Hsel]. rewrite (step_selected _ _ _ Hsel), Hb.
  destruct (blank (user_input ev)) eqn:Hin.
  - by rewrite try_translation_blank.
  - by destruct (try_translation_scored embed cos_sim entry ev w Hin)
      as (s & v & _ & ->).
Qed.

(** A submit click appends one score or changes nothing, and leaves the
    count of attempts alone. *)
Lemma step_submit ev w :
  button ev = SubmitClick →
  (next ev w = w
   ∨ ∃ v, scores (session (next ev w)) = scores (session w) ++ [v])
  ∧ attempted_questions (session (next ev w))
    = attempted_questions (session w).
Proof.
  intros Hb.
  destruct (japanese_to_entry translations !! selected_japanese ev)
    as [entry|] eqn:Hsel.
  - rewrite (step_selected _ _ _ Hsel), Hb.
    destruct (submit_valid ev) eqn:Hv.
    + destruct (submit_translation_valid embed cos_sim entry ev w Hv)
        as (v & _ & ->). eauto.
    + destruct (submit_translation_invalid embed cos_sim entry ev w Hv)
        as (text & ->). auto.
  - rewrite script_not_selected by done. auto.
Qed.

Lemma step_submit_valid ev w :
  button ev = SubmitClick → selectable translations ev →
  submit_valid ev = true →
  ∃ v, scores (session (next ev w)) = scores (session w) ++ [v].
Proof.
  intros Hb [entry Hsel] Hv. rewrite (step_selected _ _ _ Hsel), Hb.
  destruct (submit_translation_valid embed cos_sim entry ev w Hv)
    as (v & _ & ->). eauto.
Qed.

Lemma step_no_click ev w : button ev = NoClick → next ev w = w.
Proof.
  intros Hb.
  destruct (japanese_to_entry translations !! selected_japanese ev)
    as [entry|] eqn:Hsel.
  - by rewrite (step_selected _ _ _ Hsel), Hb.
  - by apply script_not_selected.
Qed.

End Events.

(** ** What each event does to the session *)

Section Session.

Context {Tensor : Type}.
Variable embed : str → Tensor.
Variable cos_sim : Tensor → Tensor → float.
Variable translations : list Entry.

Local Abbreviation scorer := (compute_score_and_best embed cos_sim).
Local Abbreviation page := (script embed cos_sim translations).
Local Abbreviation next := (step embed cos_sim translations).

Implicit Types (ev : Event) (w : World) (entry : Entry).

(** C2: after a finish that appended its record to the sheet, [scores]
    is empty and the attempt count is zero; a finish with the sheet
    unavailable, or whose append raises, leaves [scores] and the attempt
    count as they were. *)
Theorem finish_resets_or_preserves ev w :
  button ev = FinishClick →
  (∀ r, appends_row w (next ev w) r →
     scores (session (next ev w)) = []
     ∧ attempted_questions (session (next ev w)) = 0)
  ∧ (sheet w = None ∨ is_Some (append_error ev) →
     scores (session (next ev w)) = scores (session w)
     ∧ attempted_questions (session (next ev w))
       = attempted_questions (session w)).
Proof.
  intros Hb. split.
  - intros r Happ. by apply appends_row_inv in Happ as (_ & _ & ? & ?).
  - intros Hfail.
    destruct (step_finish embed cos_sim translations ev w Hb)
      as [->|(rows & Hsh & He & _)]; [done|].
    destruct Hfail as [Hnone|[e Herr]]; congruence.
Qed.

(** C3: a try leaves [scores] as it was, whatever the state and the
    inputs; a submit with both identity fields and the answer filled in
    appends exactly one value at the end of [scores]. *)
Theorem try_keeps_submit_appends ev w :
  (button ev = TryClick →
   scores (session (next ev w)) = scores (session w))
  ∧ (button ev = SubmitClick →
     selectable translations ev →
     blank (student_name ev) = false →
     blank (student_number ev) = false →
     blank (user_input ev) = false →
     ∃ v, scores (session (next ev w)) = scores (session w) ++ [v]).
Proof.
  split.
  - apply step_try_scores.
  - intros Hb Hsel Hname Hnumber Hin. apply step_submit_valid; [done..|].
    unfold submit_valid. by rewrite Hname, Hnumber, Hin.
Qed.

(** C5: the threshold is the one constant 0.80, the double nearest to
    8/10. A try that scores the answer displays the success box exactly
    when the threshold is at most the score, and the row of a finish says
    Pass exactly when the threshold is at most the sum of the recorded
    scores divided by their number, Fail otherwise. *)
Theorem threshold_labels_try_and_finish :
  THRESHOLD = (8 / 10)%float
  ∧ (∀ ev w entry best_score best_variant,
       button ev = TryClick →
       japanese_to_entry translations !! selected_japanese ev = Some entry →
       blank (user_input ev) = false →
       scorer (user_input ev) (all_variants entry)
       = Some (best_score, best_variant) →
       labelled_passing (snd (page ev w))
       = (THRESHOLD <=? best_score)%float)
  ∧ (∀ ev w r,
       button ev = FinishClick →
       appends_row w (next ev w) r →
       row_pass_fail r
       = if (THRESHOLD
             <=? foldl PrimFloat.add 0 (scores (session w))
                 / SF2Prim (binary_normalize prec emax
                              (Z.of_nat (length (scores (session w))))
                              0 false))%float
         then lit "Pass" else lit "Fail").
Proof.
  split_and!.
  - reflexivity.
  - intros ev w entry s v Hb Hsel Hin Hs.
    rewrite (script_selected _ _ _ _ _ _ Hsel), Hb.
    unfold try_translation. rewrite Hin, Hs. simpl.
    unfold ge. by destruct (THRESHOLD <=? s)%float.
  - intros ev w r _ Happ.
    by apply appends_row_inv in Happ as (_ & -> & _).
Qed.

(** C7: a run that fails a check (a try or a submit with a blank answer,
    a submit or a finish with a blank identity field, a finish with no
    recorded score) leaves the four fields of the session state as they
    were, appends nothing to the sheet and stays in the same state of the
    machine. *)
Theorem validation_failure_changes_nothing ev w :
  (button ev = TryClick ∧ blank (user_input ev) = true)
  ∨ (button ev = SubmitClick
     ∧ (blank (student_name ev) = true ∨ blank (student_number ev) = true
        ∨ blank (user_input ev) = true))
  ∨ (button ev = FinishClick
     ∧ (blank (student_name ev) = true ∨ blank (student_number ev) = true
        ∨ scores (session w) = [])) →
  session (next ev w) = session w
  ∧ sheet (next ev w) = sheet w
  ∧ phase (session (next ev w)) = phase (session w).
Proof.
  intros Hfail. enough (next ev w = w) as -> by done.
  destruct (japanese_to_entry translations !! selected_japanese ev)
    as [entry|] eqn:Hsel; [|by apply script_not_selected].
  rewrite (step_selected _ _ _ _ _ _ Hsel).
  destruct Hfail as [(Hb & Hin)|[(Hb & Hbad)|(Hb & Hbad)]]; rewrite Hb.
  - by rewrite try_translation_blank.
  - destruct (submit_translation_invalid embed cos_sim entry ev w)
      as [text ->]; [|done].
    unfold submit_valid. destruct Hbad as [-> | [-> | ->]]; simpl;
      by rewrite ?andb_false_r.
  - destruct (finish_session_invalid ev w) as [text ->]; [|done].
    unfold finish_valid. destruct Hbad as [-> | [-> | ->]]; simpl;
      by rewrite ?andb_false_r.
Qed.

(** C8: a valid submit in state Scored appends the cached score, with no
    regard for what the scorer would return now; in state Idle it appends
    the score the scorer returns for the current answer and the variants
    of the selected entry. Either way the cached score and variant are
    cleared, so the state afterwards is Idle. *)
Theorem submit_consumes_or_computes ev w entry :
  button ev = SubmitClick →
  japanese_to_entry translations !! selected_japanese ev = Some entry →
  blank (student_name ev) = false →
  blank (student_number ev) = false →
  blank (user_input ev) = false →
  (∀ cached, last_score (session w) = Some cached →
     scores (session (next ev w)) = scores (session w) ++ [cached])
  ∧ (last_score (session w) = None →
     ∃ best_score best_variant,
       scorer (user_input ev) (all_variants entry)
       = Some (best_score, best_variant)
       ∧ scores (session (next ev w)) = scores (session w) ++ [best_score])
  ∧ last_score (session (next ev w)) = None
  ∧ last_variant (session (next ev w)) = None
  ∧ phase (session (next ev w)) = Idle.
Proof.
  intros Hb Hsel Hname Hnumber Hin.
  rewrite (step_selected _ _ _ _ _ _ Hsel), Hb.
  destruct (submit_translation_valid embed cos_sim entry ev w)
    as (s & Hs & ->).
  { unfold submit_valid. by rewrite Hname, Hnumber, Hin. }
  split_and!; try done.
  - intros cached Hc. rewrite Hc in Hs. by subst.
  - intros Hc. rewrite Hc in Hs. destruct Hs as [v Hv]. by exists s, v.
Qed.

(** C9: an answer or an identity field made of whitespace only counts as
    empty. For every such string, empty or not, a try or a submit with it
    as the answer, and a submit or a finish with it as the name or the
    number, is turned down with a warning and changes nothing. *)
Theorem whitespace_only_is_rejected ev w entry (s : str) :
  Forall (λ c, is_space c = true) s →
  japanese_to_entry translations !! selected_japanese ev = Some entry →
  (button ev = TryClick → user_input ev = s →
   ∃ text, page ev w = (w, [Warning text]))
  ∧ (button ev = SubmitClick →
     student_name ev = s ∨ student_number ev = s ∨ user_input ev = s →
     ∃ text, page ev w = (w, [Warning text]))
  ∧ (button ev = FinishClick →
     student_name ev = s ∨ student_number ev = s →
     ∃ text, page ev w = (w, [Warning text])).
Proof.
  intros Hs%blank_spec Hsel.
  rewrite (script_selected _ _ _ _ _ _ Hsel).
  split_and!.
  - intros -> <-. rewrite try_translation_blank by done. eauto.
  - intros -> Hfield. apply submit_translation_invalid.
    unfold submit_valid. destruct Hfield as [-> | [-> | ->]];
      rewrite Hs; simpl; by rewrite ?andb_false_r.
  - intros -> Hfield. apply finish_session_invalid.
    unfold finish_valid. destruct Hfield as [-> | ->];
      rewrite Hs; simpl; by rewrite ?andb_false_r.
Qed.

End Session.

(** ** Fixed-point formatting *)

Section Formatting.

Local Abbreviation digits s := (Forall (λ c, is_digit c = true) s).

Lemma is_digit_digit n : 0 ≤ n < 10 → is_digit (digit n) = true.
Proof.
  intros Hn. unfold is_digit, digit.
  apply andb_true_intro. split; apply N.leb_le; lia.
Qed.

Lemma fixed_digits_length d n : length (fixed_digits d n) = d.
Proof.
  revert n. induction d as [|d IH]; intros n; simpl; [done|].
  rewrite length_app, IH. simpl. lia.
Qed.

Lemma fixed_digits_digits d n : digits (fixed_digits d n).
Proof.
  revert n. induction d as [|d IH]; intros n; simpl; [constructor|].
  apply Forall_app. split; [apply IH|].
  repeat constructor. apply is_digit_digit. by apply Z.mod_pos_bound.
Qed.

Lemma pretty_N_char_digit k :
  is_digit (Ascii.N_of_ascii (pretty_N_char k)) = true.
Proof. unfold pretty_N_char. by repeat case_match. Qed.

Lemma pretty_N_go_digits x s :
  digits (lit s) →
  digits (lit (pretty_N_go x s)) ∧ (s ≠ "" → pretty_N_go x s ≠ "").
Proof.
  revert s. induction (N.lt_wf_0 x) as [x _ IH]; intros s Hs.
  destruct (decide (x = 0%N)) as [->|Hx]; [by rewrite pretty_N_go_0|].
  rewrite pretty_N_go_step by lia.
  destruct (IH (x `div` 10)%N) with
    (s := String (pretty_N_char (x `mod` 10)%N) s) as [Hd Hne].
  - apply N.div_lt; lia.
  - constructor; [apply pretty_N_char_digit|done].
  - split; [done|]. intros _. by apply Hne.
Qed.

Lemma pretty_N_digits (x : N) :
  digits (lit (pretty x)) ∧ lit (pretty x) ≠ [].
Proof.
  unfold pretty, pretty_N. case_decide as Hx.
  { split; [by repeat constructor|done]. }
  rewrite pretty_N_go_step by lia.
  destruct (pretty_N_go_digits (x `div` 10)%N
              (String (pretty_N_char (x `mod` 10)%N) ""))
    as [Hd Hne].
  { repeat constructor. apply pretty_N_char_digit. }
  split; [done|].
  destruct (pretty_N_go _ _); [by destruct Hne|done].
Qed.

(** A number that is neither NaN nor infinite is written with exactly
    [d] decimals. *)
Lemma format_f_decimals d x :
  d ≠ O → finite x = true → has_decimals d (format_f d x).
Proof.
  intros Hd. unfold finite, format_f.
  destruct d as [|d]; [done|].
  destruct (Prim2SF x) as [s|s| |s m e]; intros Hfin; try done.
  - exists (lit "0"), (fixed_digits (S d) 0). split_and!.
    + destruct s; [right|left]; done.
    + done.
    + by repeat constructor.
    + apply fixed_digits_length.
    + apply fixed_digits_digits.
  - set (n := scaled (S d) m e). set (p := 10 ^ Z.of_nat (S d)).
    destruct (pretty_N_digits (Z.to_N (n / p))) as [Hdig Hne].
    exists (lit (pretty (Z.to_N (n / p)))), (fixed_digits (S d) (n mod p)).
    split_and!.
    + destruct s; [right|left]; done.
    + done.
    + done.
    + apply fixed_digits_length.
    + apply fixed_digits_digits.
Qed.

(** *** The rendering read back *)

Import Rendering.


















End Formatting.

(** ** Whole sessions *)

Section Traces.

Context {Tensor : Type}.
Variable embed : str → Tensor.
Variable cos_sim : Tensor → Tensor → float.
Variable translations : list Entry.

Local Abbreviation next := (step embed cos_sim translations).
Local Abbreviation play := (run embed cos_sim translations).
Local Abbreviation count := (tally_step embed cos_sim translations).
Local Abbreviation counts := (session_tally embed cos_sim translations).

Implicit Types (ev : Event) (evs : list Event) (w : World) (t : Tally).

Lemma run_cons ev evs w : play (ev :: evs) w = play evs (next ev w).
Proof. done. Qed.

(** A run that changed the sheet was a finish that reset the session. *)
Lemma recorded_true ev w :
  recorded embed cos_sim translations ev w = true →
  button ev = FinishClick
  ∧ scores (session (next ev w)) = []
  ∧ attempted_questions (session (next ev w)) = 0.
Proof.
  unfold recorded. rewrite bool_decide_eq_true. intros Hsh.
  destruct (decide (button ev = FinishClick)) as [Hb|Hb].
  - destruct (step_finish embed cos_sim translations ev w Hb)
      as [Hsame|(rows & _ & _ & _ & Hnext)].
    + by rewrite Hsame in Hsh.
    + by rewrite Hnext.
  - by rewrite step_sheet in Hsh.
Qed.

(** A finish click that left the sheet alone changed nothing. *)
Lemma recorded_false_finish ev w :
  recorded embed cos_sim translations ev w = false →
  button ev = FinishClick → next ev w = w.
Proof.
  unfold recorded. rewrite bool_decide_eq_false. intros Hsh Hb.
  destruct (step_finish embed cos_sim translations ev w Hb)
    as [Hsame|(rows & Hrows & _ & _ & Hnext)]; [done|].
  destruct Hsh. rewrite Hnext, Hrows. simpl. intros [= Heq].
  apply (f_equal length) in Heq. rewrite length_app in Heq. simpl in Heq. lia.
Qed.

(** One run keeps [scores] equal to the values the submits of the
    session appended, and no longer than their number. *)
Lemma tally_step_scores ev w t :
  scores (session w) = submitted t →
  (length (scores (session w)) ≤ submit_events t)%nat →
  scores (session (next ev w)) = submitted (count ev w t)
  ∧ (length (scores (session (next ev w))) ≤ submit_events (count ev w t))%nat.
Proof.
  intros Hsub Hlen. unfold tally_step.
  destruct (recorded embed cos_sim translations ev w) eqn:Hrec.
  { apply recorded_true in Hrec as (_ & -> & _). simpl. split; [done|lia]. }
  destruct (button ev) eqn:Hb; simpl.
  - by rewrite step_no_click.
  - by rewrite step_try_scores.
  - destruct (step_submit embed cos_sim translations ev w Hb)
      as [[->|[v ->]] _].
    + rewrite drop_all, app_nil_r. split; [done|lia].
    + rewrite drop_app_length, length_app. simpl.
      split; [by rewrite Hsub|lia].
  - by rewrite recorded_false_finish.
Qed.

(** One run of a selectable event keeps the count of attempts equal to
    the number of tries with a non-blank answer. *)
Lemma tally_step_attempts ev w t :
  selectable translations ev →
  attempted_questions (session w) = Z.of_nat (tries_accepted t) →
  (tries_accepted t ≤ try_events t)%nat →
  attempted_questions (session (next ev w))
  = Z.of_nat (tries_accepted (count ev w t))
  ∧ (tries_accepted (count ev w t) ≤ try_events (count ev w t))%nat.
Proof.
  intros Hsel Hatt Hle. unfold tally_step.
  destruct (recorded embed cos_sim translations ev w) eqn:Hrec.
  { apply recorded_true in Hrec as (_ & _ & ->). simpl. split; [done|lia]. }
  destruct (button ev) eqn:Hb; simpl.
  - by rewrite step_no_click.
  - rewrite step_try_attempted by done.
    destruct (blank (user_input ev)); lia.
  - by destruct (step_submit embed cos_sim translations ev w Hb) as [_ ->].
  - by rewrite recorded_false_finish.
Qed.

Lemma session_tally_scores evs w t :
  scores (session w) = submitted t →
  (length (scores (session w)) ≤ submit_events t)%nat →
  scores (session (play evs w)) = submitted (counts evs w t)
  ∧ (length (scores (session (play evs w)))
     ≤ submit_events (counts evs w t))%nat.
Proof.
  revert w t. induction evs as [|ev evs IH]; intros w t Hsub Hlen; [done|].
  rewrite run_cons. simpl.
  destruct (tally_step_scores ev w t Hsub Hlen) as [Hsub' Hlen'].
  by apply IH.
Qed.

Lemma session_tally_attempts evs w t :
  Forall (selectable translations) evs →
  attempted_questions (session w) = Z.of_nat (tries_accepted t) →
  (tries_accepted t ≤ try_events t)%nat →
  attempted_questions (session (play evs w))
  = Z.of_nat (tries_accepted (counts evs w t))
  ∧ (tries_accepted (counts evs w t) ≤ try_events (counts evs w t))%nat.
Proof.
  intros Hsel. revert w t.
  induction Hsel as [|ev evs Hev _ IH]; intros w t Hatt Hle; [done|].
  rewrite run_cons. simpl.
  destruct (tally_step_attempts ev w t Hev Hatt Hle) as [Hatt' Hle'].
  by apply IH.
Qed.

(** With some reference data there is a session in which the two
    numbers differ: one try of a non-blank answer. *)
Lemma lone_try_differs sh :
  translations ≠ [] →
  ∃ evs,
    Forall (selectable translations) evs
    ∧ Z.of_nat (length (scores (session (play evs (start sh)))))
      ≠ attempted_questions (session (play evs (start sh))).
Proof.
  intros Hne.
  destruct translations as [|entry l _] eqn:Htr using rev_ind; [done|].
  set (ev := {| button := TryClick; student_name := []; student_number := [];
                selected_japanese := japanese entry; user_input := lit "x";
                now := []; append_error := None |}).
  assert (selectable translations ev) as Hsel.
  { exists entry. rewrite Htr, japanese_to_entry_snoc. apply lookup_insert_eq. }
  rewrite <- Htr. exists [ev]. split; [by repeat constructor|].
  change (play [ev] (start sh)) with (next ev (start sh)).
  rewrite step_try_scores, step_try_attempted by done. done.
Qed.


(** C6, amended: in every state a session of selectable events reaches,
    [scores] is no longer than the number of submit clicks of the
    session, and the count of attempts equals the number of try clicks
    whose answer was not blank, which is at most the number of try
    clicks. The length of [scores] and the count of attempts need not
    agree. *)
Theorem session_counts evs sh :
  Forall (selectable translations) evs →
  ((length (scores (session (play evs (start sh))))
    ≤ submit_events (counts evs (start sh) empty_tally))%nat
   ∧ attempted_questions (session (play evs (start sh)))
     = Z.of_nat (tries_accepted (counts evs (start sh) empty_tally))
   ∧ (tries_accepted (counts evs (start sh) empty_tally)
      ≤ try_events (counts evs (start sh) empty_tally))%nat)
  ∧ (translations ≠ [] →
     ∃ evs',
       Forall (selectable translations) evs'
       ∧ Z.of_nat (length (scores (session (play evs' (start sh)))))
         ≠ attempted_questions (session (play evs' (start sh)))).
Proof.
  intros Hsel. split; [|apply lone_try_differs].
  destruct (session_tally_scores evs (start sh) empty_tally) as [_ Hlen];
    [done|simpl; lia|].
  destruct (session_tally_attempts evs (start sh) empty_tally Hsel)
    as [Hatt Hle]; [done|simpl; lia|].
  done.
Qed.

End Traces.

(** ** Duplicated keys *)

(** C10: when two records of the file carry the same source sentence,
    the map built at load time holds the later one: looking up the
    shared key gives the last record of the file with that key. *)
Theorem later_duplicate_wins
    (before between after : list Entry) (earlier later : Entry) :
  japanese earlier = japanese later →
  Forall (λ entry, japanese entry ≠ japanese later) after →
  japanese_to_entry (before ++ earlier :: between ++ later :: after)
    !! japanese later
  = Some later.
Proof.
  intros _ Hafter.
  rewrite japanese_to_entry_lookup.
  replace (before ++ earlier :: between ++ later :: after)
    with ((before ++ earlier :: between) ++ later :: after)
    by by rewrite <- app_assoc.
  rewrite filter_app, filter_cons_True by done.
  replace (filter (λ entry, japanese entry = japanese later) after)
    with (@nil Entry).
  - apply last_snoc.
  - symmetry. induction Hafter as [|entry l Hne _ IH]; [done|].
    by rewrite filter_cons_False.
Qed.

Lemma later_duplicate_wins_rice :
  japanese_to_entry [Demo.bread; Demo.rice; Demo.bread; Demo.rice_again; Demo.bread]
    !! japanese Demo.rice_again
  = Some Demo.rice_again.
Proof.
  apply (later_duplicate_wins [Demo.bread] [Demo.bread] [Demo.bread]
           Demo.rice Demo.rice_again).
  - reflexivity.
  - repeat constructor. discriminate.
Defined.

(** ** The properties on the small instance *)

(** The lesson followed by a finish: with a sheet the session is reset,
    without one it is kept. *)
Lemma finish_resets_or_preserves_lesson :
  (scores (session (Demo.next (Demo.click FinishClick [])
                      (Demo.run Demo.lesson (Some []))))
   = []
   ∧ attempted_questions
       (session (Demo.next (Demo.click FinishClick [])
                   (Demo.run Demo.lesson (Some []))))
     = 0)
  ∧ (scores (session (Demo.next (Demo.click FinishClick [])
                        (Demo.run Demo.lesson None)))
     = scores (session (Demo.run Demo.lesson None))
     ∧ attempted_questions
         (session (Demo.next (Demo.click FinishClick [])
                     (Demo.run Demo.lesson None)))
       = attempted_questions (session (Demo.run Demo.lesson None))).
Proof.
  split.
  - apply (proj1 (finish_resets_or_preserves Demo.embed Demo.cos_sim
                    Demo.translations (Demo.click FinishClick [])
                    (Demo.run Demo.lesson (Some [])) eq_refl)
             (summary_row (Demo.click FinishClick [])
                (Demo.run Demo.lesson (Some [])))).
    exists []. split; vm_compute; reflexivity.
  - apply (proj2 (finish_resets_or_preserves Demo.embed Demo.cos_sim
                    Demo.translations (Demo.click FinishClick [])
                    (Demo.run Demo.lesson None) eq_refl)).
    left. reflexivity.
Defined.

(** A try after the lesson keeps the two scores; a submit adds a third. *)
Lemma try_keeps_submit_appends_lesson :
  scores (session (Demo.next (Demo.click TryClick (lit "rice"))
                     (Demo.run Demo.lesson None)))
  = scores (session (Demo.run Demo.lesson None))
  ∧ ∃ v,
      scores (session (Demo.next (Demo.click SubmitClick (lit "rice"))
                         (Demo.run Demo.lesson None)))
      = scores (session (Demo.run Demo.lesson None)) ++ [v].
Proof.
  split.
  - apply (proj1 (try_keeps_submit_appends Demo.embed Demo.cos_sim
                    Demo.translations (Demo.click TryClick (lit "rice"))
                    (Demo.run Demo.lesson None))).
    reflexivity.
  - apply (proj2 (try_keeps_submit_appends Demo.embed Demo.cos_sim
                    Demo.translations (Demo.click SubmitClick (lit "rice"))
                    (Demo.run Demo.lesson None))).
    + reflexivity.
    + exists Demo.rice. vm_compute. reflexivity.
    + vm_compute. reflexivity.
    + vm_compute. reflexivity.
    + vm_compute. reflexivity.
Defined.



(** A perfect answer is labelled as passing and a poor one is not; a
    session with the single score 1 passes and the lesson, whose mean is
    0.75, fails. *)
Lemma threshold_labels_lesson :
  labelled_passing
    (snd (Demo.page (Demo.click TryClick (lit "I eat rice")) (start None)))
  = true
  ∧ labelled_passing
      (snd (Demo.page (Demo.click TryClick (lit "rice")) (start None)))
    = false
  ∧ row_pass_fail
      (summary_row (Demo.click FinishClick [])
         (Demo.run [Demo.click SubmitClick (lit "I eat rice")] (Some [])))
    = lit "Pass"
  ∧ row_pass_fail (summary_row (Demo.click FinishClick [])
                     (Demo.run Demo.lesson (Some [])))
    = lit "Fail".
Proof.
  destruct (threshold_labels_try_and_finish Demo.embed Demo.cos_sim
              Demo.translations) as (_ & Htry & Hfinish).
  split_and!.
  - etrans.
    + apply (Htry _ (start None) Demo.rice 1%float (lit "I eat rice"));
        vm_compute; reflexivity.
    + vm_compute. reflexivity.
  - etrans.
    + apply (Htry _ (start None) Demo.rice 0.5%float (lit "I eat rice"));
        vm_compute; reflexivity.
    + vm_compute. reflexivity.
  - etrans.
    + apply (Hfinish (Demo.click FinishClick [])
               (Demo.run [Demo.click SubmitClick (lit "I eat rice")] (Some [])));
        [reflexivity|].
      exists []. split; vm_compute; reflexivity.
    + vm_compute. reflexivity.
  - etrans.
    + apply (Hfinish (Demo.click FinishClick [])
               (Demo.run Demo.lesson (Some [])));
        [reflexivity|].
      exists []. split; vm_compute; reflexivity.
    + vm_compute. reflexivity.
Defined.

(** A finish before any submit changes nothing. *)
Lemma validation_failure_changes_nothing_finish :
  session (Demo.next (Demo.click FinishClick []) (start (Some [])))
  = session (start (Some []))
  ∧ sheet (Demo.next (Demo.click FinishClick []) (start (Some [])))
    = sheet (start (Some []))
  ∧ phase (session (Demo.next (Demo.click FinishClick []) (start (Some []))))
    = phase (session (start (Some []))).
Proof.
  apply (validation_failure_changes_nothing Demo.embed Demo.cos_sim
           Demo.translations (Demo.click FinishClick []) (start (Some []))).
  right. right. split; [reflexivity|]. right. right. reflexivity.
Defined.

(** The counts of the lesson: two submits and one try, two scores and
    one attempt. *)
Lemma session_counts_lesson :
  ((length (scores (session (Demo.run Demo.lesson None)))
    ≤ submit_events (Demo.tally Demo.lesson None))%nat
   ∧ attempted_questions (session (Demo.run Demo.lesson None))
     = Z.of_nat (tries_accepted (Demo.tally Demo.lesson None))
   ∧ (tries_accepted (Demo.tally Demo.lesson None)
      ≤ try_events (Demo.tally Demo.lesson None))%nat)
  ∧ (Demo.translations ≠ [] →
     ∃ evs',
       Forall (selectable Demo.translations) evs'
       ∧ Z.of_nat (length (scores (session (Demo.run evs' None))))
         ≠ attempted_questions (session (Demo.run evs' None))).
Proof.
  apply (session_counts Demo.embed Demo.cos_sim Demo.translations
           Demo.lesson None).
  repeat constructor; exists Demo.rice; vm_compute; reflexivity.
Defined.

(** A try click with an empty answer box is a try event that the count
    of attempts does not see. *)
Lemma blank_try_is_not_counted :
  ¬ ((length (scores (session (Demo.run [Demo.click TryClick []] None)))
      ≤ submit_events (Demo.tally [Demo.click TryClick []] None))%nat
     ∧ attempted_questions
         (session (Demo.run [Demo.click TryClick []] None))
       = Z.of_nat (try_events (Demo.tally [Demo.click TryClick []] None))).
Proof. intros [_ Heq]. vm_compute in Heq. discriminate Heq. Qed.

(** After a try of the primary translation the score 1 is cached; a
    submit appends it although the answer box now holds a text that the
    scorer rates 0.5. With no try before it the submit appends the 0.5. *)
Lemma submit_consumes_or_computes_lesson :
  (scores (session (Demo.next (Demo.click SubmitClick (lit "rice"))
                      (Demo.run [Demo.click TryClick (lit "I eat rice")] None)))
   = [1%float]
   ∧ phase (session (Demo.next (Demo.click SubmitClick (lit "rice"))
                       (Demo.run [Demo.click TryClick (lit "I eat rice")] None)))
     = Idle)
  ∧ ∃ best_score best_variant,
      compute_score_and_best Demo.embed Demo.cos_sim (lit "rice")
        (all_variants Demo.rice)
      = Some (best_score, best_variant)
      ∧ scores (session (Demo.next (Demo.click SubmitClick (lit "rice"))
                           (start None)))
        = [] ++ [best_score].
Proof.
  split.
  - destruct (submit_consumes_or_computes Demo.embed Demo.cos_sim
                Demo.translations (Demo.click SubmitClick (lit "rice"))
                (Demo.run [Demo.click TryClick (lit "I eat rice")] None)
                Demo.rice)
      as (Hcached & _ & _ & _ & Hidle); try (vm_compute; reflexivity).
    split; [|exact Hidle].
    apply (Hcached 1%float). vm_compute. reflexivity.
  - destruct (submit_consumes_or_computes Demo.embed Demo.cos_sim
                Demo.translations (Demo.click SubmitClick (lit "rice"))
                (start None) Demo.rice)
      as (_ & Hfresh & _); try (vm_compute; reflexivity).
    apply Hfresh. reflexivity.
Defined.

(** The string of two spaces is not empty and is turned down as an
    answer, as a name and as a number. *)
Lemma whitespace_only_is_rejected_spaces :
  Demo.spaces ≠ []
  ∧ (∃ text,
       Demo.page (Demo.click TryClick Demo.spaces) (start None)
       = (start None, [Warning text]))
  ∧ (∃ text,
       Demo.page (Demo.click SubmitClick Demo.spaces) (start None)
       = (start None, [Warning text]))
  ∧ (∃ text,
       Demo.page
         {| button := FinishClick;
            student_name := lit "Aiko";
            student_number := Demo.spaces;
            selected_japanese := japanese Demo.rice;
            user_input := [];
            now := [];
            append_error := None |}
         (Demo.run Demo.lesson (Some []))
       = (Demo.run Demo.lesson (Some []), [Warning text])).
Proof.
  assert (Forall (λ c, is_space c = true) Demo.spaces) as Hs
    by (repeat constructor).
  split_and!.
  - discriminate.
  - apply (proj1 (whitespace_only_is_rejected Demo.embed Demo.cos_sim
                    Demo.translations (Demo.click TryClick Demo.spaces)
                    (start None) Demo.rice Demo.spaces Hs eq_refl));
      reflexivity.
  - apply (proj1 (proj2 (whitespace_only_is_rejected Demo.embed Demo.cos_sim
                    Demo.translations (Demo.click SubmitClick Demo.spaces)
                    (start None) Demo.rice Demo.spaces Hs eq_refl)));
      [reflexivity|]. right. right. reflexivity.
  - apply (proj2 (proj2 (whitespace_only_is_rejected Demo.embed Demo.cos_sim
                    Demo.translations
                    {| button := FinishClick;
                       student_name := lit "Aiko";
                       student_number := Demo.spaces;
                       selected_japanese := japanese Demo.rice;
                       user_input := [];
                       now := [];
                       append_error := None |}
                    (Demo.run Demo.lesson (Some [])) Demo.rice Demo.spaces
                    Hs eq_refl)));
      [reflexivity|]. right. reflexivity.
Defined.

(** The scenario of three scores 0.9, 0.5 and 0.7: the row reads 0.7000
    and Fail. *)
#[warnings="-inexact-float"]
Example summary_row_of_three :
  let w :=
    {| session :=
         {| last_score := None; last_variant := None;
            scores := [0.9; 0.5; 0.7]%float; attempted_questions := 3 |};
       sheet := Some [] |} in
  row_average (summary_row (Demo.click FinishClick []) w) = lit "0.7000"
  ∧ row_pass_fail (summary_row (Demo.click FinishClick []) w) = lit "Fail"
  ∧ row_questions (summary_row (Demo.click FinishClick []) w) = 3.
Proof. vm_compute. done. Qed.

(** * Further properties of the script *)

(** ** The scorer on arbitrary similarities *)

Section ScorerEdges.

Context {Tensor : Type}.
Variable embed : str → Tensor.
Variable cos_sim : Tensor → Tensor → float.

Local Abbreviation sim := (similarity embed cos_sim).
Local Abbreviation scorer := (compute_score_and_best embed cos_sim).

(** What the scorer returns is a variant of the list and the
    similarity of a variant of the list, whatever the similarities. *)
Lemma scorer_elements user_text variants best_score best_variant :
  scorer user_text variants = Some (best_score, best_variant) →
  best_variant ∈ variants
  ∧ ∃ variant, variant ∈ variants ∧ best_score = sim user_text variant.
Proof.
  rewrite compute_score_and_best_eq.
  destruct (Torch.argmax _) as [j|] eqn:Hj; [|done].
  destruct (Torch.max _) as [m|] eqn:Hm; [|done]. simpl.
  destruct (variants !! j) as [v|] eqn:Hv; [|done]. simpl.
  intros [= <- <-]. split; [by eapply list_elem_of_lookup_2|].
  apply max_elem, list_elem_of_fmap in Hm as (variant & -> & Hin). eauto.
Qed.

(** On similarities that are numbers nothing in the list beats the
    returned score. *)
Lemma scorer_upper_bound user_text variants best_score best_variant v :
  Torch.no_nan (sim user_text <$> variants) →
  scorer user_text variants = Some (best_score, best_variant) →
  v ∈ variants →
  (sim user_text v <=? best_score)%float = true.
Proof.
  intros Hnum Hs Hv.
  assert (sim user_text <$> variants ≠ []) as Hne.
  { destruct variants; [|done]. by apply elem_of_nil in Hv. }
  destruct (max_maximum _ Hne Hnum) as (m & Hm & _ & Hmax).
  rewrite compute_score_and_best_eq, Hm in Hs.
  destruct (Torch.argmax _) as [j|]; [|done]. simpl in Hs.
  destruct (variants !! j); [|done]. injection Hs as <- _.
  by apply Hmax, list_elem_of_fmap_2.
Qed.

(** X1: with an embedding model and a cosine similarity that return,
    the scorer raises exactly when it is given no variant: the reduction
    over an empty tensor raises, and with at least one variant the index
    [argmax] returns is always inside the list. *)
Theorem scorer_raises_iff_no_variant user_text variants :
  compute_score_and_best embed cos_sim user_text variants = None
  ↔ variants = [].
Proof.
  split.
  - intros Hnone. destruct variants as [|v vs]; [done|].
    destruct (compute_score_and_best_total embed cos_sim user_text (v :: vs))
      as [r Hr]; [done|]. congruence.
  - by intros ->.
Qed.

(** X2: whatever the similarities are, NaN included, the variant the
    scorer returns is an element of the list it was given, and the score
    it returns is the similarity of the candidate to one of the variants
    of that list. *)
Theorem scorer_returns_listed_variant
    user_text variants best_score best_variant :
  compute_score_and_best embed cos_sim user_text variants
  = Some (best_score, best_variant) →
  best_variant ∈ variants
  ∧ ∃ variant,
      variant ∈ variants
      ∧ best_score = similarity embed cos_sim user_text variant.
Proof. apply scorer_elements. Qed.

(** X3: more variants never lower the score. On similarities that are
    numbers, the score against a list extended by further variants is at
    least the score against the list itself. *)
Theorem scorer_monotone user_text variants more s v s' v' :
  Torch.no_nan (sim user_text <$> variants ++ more) →
  scorer user_text variants = Some (s, v) →
  scorer user_text (variants ++ more) = Some (s', v') →
  (s <=? s')%float = true.
Proof.
  intros Hnum (_ & variant & Hin & ->)%scorer_elements Hext.
  eapply scorer_upper_bound; [done..|].
  apply elem_of_app. by left.
Qed.

End ScorerEdges.

Lemma scorer_returns_listed_variant_rice :
  lit "I eat rice" ∈ all_variants Demo.rice
  ∧ ∃ variant,
      variant ∈ all_variants Demo.rice
      ∧ 0.5%float = similarity Demo.embed Demo.cos_sim (lit "rice") variant.
Proof.
  apply (scorer_returns_listed_variant Demo.embed Demo.cos_sim
           (lit "rice") (all_variants Demo.rice)).
  vm_compute. reflexivity.
Defined.

Lemma scorer_monotone_rice : (0.5 <=? 1)%float = true.
Proof.
  apply (scorer_monotone Demo.embed Demo.cos_sim (lit "I am eating rice")
           [lit "I eat rice"] [lit "I am eating rice"]
           0.5%float (lit "I eat rice") 1%float (lit "I am eating rice")).
  - repeat constructor.
  - vm_compute. reflexivity.
  - vm_compute. reflexivity.
Defined.

(** ** The lookup map as a view of the file *)

Section LookupEdges.

Implicit Types (translations : list Entry) (k : str) (entry : Entry).

Lemma lookup_from_file translations k entry :
  japanese_to_entry translations !! k = Some entry →
  entry ∈ translations ∧ japanese entry = k.
Proof.
  rewrite japanese_to_entry_lookup.
  intros Hin%last_Some_elem_of%list_elem_of_filter. tauto.
Qed.

Lemma lookup_none translations k :
  japanese_to_entry translations !! k = None
  ↔ Forall (λ entry, japanese entry ≠ k) translations.
Proof.
  rewrite japanese_to_entry_lookup, last_None, Forall_forall. split.
  - intros Hnil entry Hin Hk.
    assert (entry ∈ filter (λ e, japanese e = k) translations) as Hf
      by by apply list_elem_of_filter.
    rewrite Hnil in Hf. by apply elem_of_nil in Hf.
  - intros Hall.
    destruct (filter _ translations) as [|entry l] eqn:Hf; [done|].
    assert (entry ∈ filter (λ e, japanese e = k) translations) as Hin
      by (rewrite Hf; left).
    apply list_elem_of_filter in Hin as [Hk Hin]. by destruct (Hall entry).
Qed.

(** Distinct entries of a file without repeated keys have distinct
    keys. *)
Lemma unique_key translations entry entry' :
  NoDup (japanese <$> translations) →
  entry ∈ translations → entry' ∈ translations →
  japanese entry = japanese entry' → entry = entry'.
Proof.
  induction translations as [|e l IH]; simpl; [by intros _ ?%elem_of_nil|].
  intros [Hfresh Hl]%NoDup_cons [->|Hin]%elem_of_cons [->|Hin']%elem_of_cons Hk;
    try done.
  - destruct Hfresh. rewrite Hk. by apply list_elem_of_fmap_2.
  - destruct Hfresh. rewrite <- Hk. by apply list_elem_of_fmap_2.
  - by apply IH.
Qed.

(** X4: an entry found in the map is a record of the file and carries
    the key it was looked up under. *)
Theorem lookup_returns_file_entry translations k entry :
  japanese_to_entry translations !! k = Some entry →
  entry ∈ translations ∧ japanese entry = k.
Proof. apply lookup_from_file. Qed.

(** X5: a key is missing from the map exactly when no record of the
    file has it as its source sentence. *)
Theorem lookup_missing_iff_no_record translations k :
  japanese_to_entry translations !! k = None
  ↔ Forall (λ entry, japanese entry ≠ k) translations.
Proof. apply lookup_none. Qed.

(** X6: in a file whose source sentences are all different, every
    record is found under its own source sentence. *)
Theorem lookup_finds_every_record translations entry :
  NoDup (japanese <$> translations) →
  entry ∈ translations →
  japanese_to_entry translations !! japanese entry = Some entry.
Proof.
  intros Hnodup Hin.
  destruct (japanese_to_entry translations !! japanese entry)
    as [entry'|] eqn:Hk.
  - apply lookup_from_file in Hk as [Hin' Hk].
    by rewrite (unique_key translations entry' entry).
  - apply lookup_none in Hk. rewrite Forall_forall in Hk.
    by destruct (Hk entry).
Qed.

End LookupEdges.

Lemma lookup_returns_file_entry_rice :
  Demo.rice_again ∈ [Demo.rice; Demo.bread; Demo.rice_again]
  ∧ japanese Demo.rice_again = [31859%N].
Proof.
  apply (lookup_returns_file_entry
           [Demo.rice; Demo.bread; Demo.rice_again] [31859%N]).
  vm_compute. reflexivity.
Defined.

Lemma lookup_finds_every_record_bread :
  japanese_to_entry [Demo.rice; Demo.bread] !! japanese Demo.bread
  = Some Demo.bread.
Proof.
  apply (lookup_finds_every_record [Demo.rice; Demo.bread] Demo.bread).
  - apply NoDup_cons. split; [|apply NoDup_singleton].
    by intros [=]%list_elem_of_singleton.
  - set_solver.
Defined.

(** ** A page without reference data *)

Section NoData.

Context {Tensor : Type}.
Variable embed : str → Tensor.
Variable cos_sim : Tensor → Tensor → float.

Local Abbreviation page := (script embed cos_sim).

(** X7: the page stops with the warning that no translation data was
    found exactly when the file holds no record; such a run leaves the
    session state and the sheet as they were, whatever was clicked. *)
Theorem page_stops_iff_no_data translations ev w :
  (translations = [] →
   page translations ev w = (w, [Warning (lit "No translation data found.")]))
  ∧ (snd (page translations ev w)
     = [Warning (lit "No translation data found.")] →
     translations = []).
Proof.
  split; [by intros ->|].
  unfold script. case_bool_decide as Hempty.
  { intros _. by apply japanese_to_entry_empty. }
  destruct (japanese_to_entry translations !! selected_japanese ev)
    as [entry|]; [|done].
  destruct (button ev); [done|..].
  - unfold try_translation. destruct (blank (user_input ev)).
    + by intros [=].
    + by destruct (compute_score_and_best _ _ _ _) as [[s v]|].
  - unfold submit_translation.
    destruct (blank (student_name ev) || blank (student_number ev)).
    { by intros [=]. }
    destruct (blank (user_input ev)).
    { by intros [=]. }
    destruct (last_score (session w)); [done|].
    by destruct (compute_score_and_best _ _ _ _) as [[s v]|].
  - unfold finish_session.
    destruct (blank (student_name ev) || blank (student_number ev)).
    { by intros [=]. }
    destruct (scores (session w)).
    { by intros [=]. }
    destruct (sheet w); [|done]. by destruct (append_error ev).
Qed.

End NoData.

(** ** Transitions and their compositions *)

Section SessionEdges.

Context {Tensor : Type}.
Variable embed : str → Tensor.
Variable cos_sim : Tensor → Tensor → float.
Variable translations : list Entry.

Local Abbreviation scorer := (compute_score_and_best embed cos_sim).
Local Abbreviation next := (step embed cos_sim translations).
Local Abbreviation play := (run embed cos_sim translations).

Implicit Types (ev : Event) (evs : list Event) (w : World) (entry : Entry).

(** The world after a try that is scored. *)
Lemma step_try_valid ev w entry :
  button ev = TryClick →
  japanese_to_entry translations !! selected_japanese ev = Some entry →
  blank (user_input ev) = false →
  ∃ best_score best_variant,
    scorer (user_input ev) (all_variants entry)
    = Some (best_score, best_variant)
    ∧ next ev w
      = {| session :=
             {| last_score := Some best_score;
                last_variant := Some best_variant;
                scores := scores (session w);
                attempted_questions := attempted_questions (session w) + 1 |};
           sheet := sheet w |}.
Proof.
  intros Hb Hsel Hin. rewrite (step_selected _ _ _ _ _ _ Hsel), Hb.
  by apply try_translation_scored.
Qed.

(** The world after a submit that passes the checks. *)
Lemma step_submit_ok ev w entry :
  button ev = SubmitClick →
  japanese_to_entry translations !! selected_japanese ev = Some entry →
  submit_valid ev = true →
  ∃ best_score,
    match last_score (session w) with
    | Some cached => best_score = cached
    | None =>
        ∃ best_variant,
          scorer (user_input ev) (all_variants entry)
          = Some (best_score, best_variant)
    end
    ∧ next ev w
      = {| session :=
             {| last_score := None;
                last_variant := None;
                scores := scores (session w) ++ [best_score];
                attempted_questions := attempted_questions (session w) |};
           sheet := sheet w |}.
Proof.
  intros Hb Hsel Hv. rewrite (step_selected _ _ _ _ _ _ Hsel), Hb.
  by apply submit_translation_valid.
Qed.

Lemma submit_valid_fields ev :
  blank (student_name ev) = false →
  blank (student_number ev) = false →
  blank (user_input ev) = false →
  submit_valid ev = true.
Proof. unfold submit_valid. by intros -> -> ->. Qed.

(** The world after a finish that passes the checks and reaches a sheet
    whose append returns. *)
Lemma step_finish_ok ev w rows :
  button ev = FinishClick →
  selectable translations ev →
  finish_valid ev w = true →
  sheet w = Some rows →
  append_error ev = None →
  next ev w
  = {| session :=
         {| last_score := last_score (session w);
            last_variant := last_variant (session w);
            scores := [];
            attempted_questions := 0 |};
       sheet := Some (rows ++ [summary_row ev w]) |}.
Proof.
  intros Hb [entry Hsel] Hv Hsh He.
  rewrite (step_selected _ _ _ _ _ _ Hsel), Hb.
  unfold finish_valid in Hv.
  rewrite !andb_true_iff, !negb_true_iff, bool_decide_eq_false in Hv.
  destruct Hv as [[Hname Hnumber] Hscores].
  unfold finish_session, summary_row. rewrite Hname, Hnumber, Hsh, He. simpl.
  by destruct (scores (session w)).
Qed.

(** A run that appended a row passed the checks of a finish. *)
Lemma appends_row_valid ev w r :
  appends_row w (next ev w) r →
  finish_valid ev w = true ∧ append_error ev = None ∧ r = summary_row ev w.
Proof.
  intros Happ.
  pose proof (appends_row_inv _ _ _ _ _ _ Happ) as (Hb & Hr & _).
  destruct (step_finish embed cos_sim translations ev w Hb)
    as [Hsame|(rows & _ & He & Hv & _)]; [|done].
  rewrite Hsame in Happ. by apply no_self_append in Happ.
Qed.

(** X8: a try with a non-blank answer stores the score and the variant
    the scorer returns for the answer and the variants of the selected
    record, counts one more attempt, and leaves [scores] and the sheet
    alone; the session is then in state Scored. *)
Theorem try_caches_score ev w entry :
  button ev = TryClick →
  japanese_to_entry translations !! selected_japanese ev = Some entry →
  blank (user_input ev) = false →
  ∃ best_score best_variant,
    scorer (user_input ev) (all_variants entry)
    = Some (best_score, best_variant)
    ∧ last_score (session (next ev w)) = Some best_score
    ∧ last_variant (session (next ev w)) = Some best_variant
    ∧ attempted_questions (session (next ev w))
      = attempted_questions (session w) + 1
    ∧ scores (session (next ev w)) = scores (session w)
    ∧ sheet (next ev w) = sheet w
    ∧ phase (session (next ev w)) = Scored.
Proof.
  intros Hb Hsel Hin.
  destruct (step_try_valid ev w entry Hb Hsel Hin) as (s & v & Hs & ->).
  by exists s, v.
Qed.

(** X9: a try click changes nothing exactly when the answer consists of
    whitespace only (the empty answer included). *)
Theorem try_rejected_iff_blank ev w :
  button ev = TryClick →
  selectable translations ev →
  next ev w = w ↔ Forall (λ c, is_space c = true) (user_input ev).
Proof.
  intros Hb [entry Hsel]. rewrite <- blank_spec. split.
  - intros Hsame. destruct (blank (user_input ev)) eqn:Hin; [done|].
    destruct (step_try_valid ev w entry Hb Hsel Hin) as (s & v & _ & Hnext).
    rewrite Hsame in Hnext.
    apply (f_equal (λ w, attempted_questions (session w))) in Hnext.
    simpl in Hnext. lia.
  - intros Hin. rewrite (step_selected _ _ _ _ _ _ Hsel), Hb.
    by rewrite try_translation_blank.
Qed.

(** X10: a submit click changes nothing exactly when the name, the
    number or the answer consists of whitespace only. *)
Theorem submit_rejected_iff_blank_field ev w :
  button ev = SubmitClick →
  selectable translations ev →
  next ev w = w
  ↔ Forall (λ c, is_space c = true) (student_name ev)
    ∨ Forall (λ c, is_space c = true) (student_number ev)
    ∨ Forall (λ c, is_space c = true) (user_input ev).
Proof.
  intros Hb [entry Hsel]. rewrite <- !blank_spec. split.
  - intros Hsame. destruct (submit_valid ev) eqn:Hv.
    + destruct (step_submit_ok ev w entry Hb Hsel Hv) as (s & _ & Hnext).
      rewrite Hsame in Hnext.
      apply (f_equal (λ w, length (scores (session w)))) in Hnext.
      simpl in Hnext. rewrite length_app in Hnext. simpl in Hnext. lia.
    + unfold submit_valid in Hv.
      destruct (blank (student_name ev)), (blank (student_number ev)),
        (blank (user_input ev)); auto; discriminate Hv.
  - intros Hbad. rewrite (step_selected _ _ _ _ _ _ Hsel), Hb.
    destruct (submit_translation_invalid embed cos_sim entry ev w)
      as [text ->]; [|done].
    unfold submit_valid. destruct Hbad as [-> | [-> | ->]]; simpl;
      by rewrite ?andb_false_r.
Qed.

(** X11: a finish click appends a row exactly when the name and the
    number are not blank, at least one score is recorded, the sheet is
    available and [append_row] does not raise. *)
Theorem finish_appends_iff ev w :
  button ev = FinishClick →
  selectable translations ev →
  (∃ r, appends_row w (next ev w) r)
  ↔ blank (student_name ev) = false
    ∧ blank (student_number ev) = false
    ∧ scores (session w) ≠ []
    ∧ is_Some (sheet w)
    ∧ append_error ev = None.
Proof.
  intros Hb Hsel. split.
  - intros [r Happ].
    destruct (appends_row_valid ev w r Happ) as (Hv & He & _).
    destruct Happ as (rows & Hsh & _).
    unfold finish_valid in Hv.
    rewrite !andb_true_iff, !negb_true_iff, bool_decide_eq_false in Hv.
    destruct Hv as [[Hname Hnumber] Hscores]. by rewrite Hsh.
  - intros (Hname & Hnumber & Hscores & [rows Hsh] & He).
    exists (summary_row ev w), rows. split; [done|].
    rewrite (step_finish_ok ev w rows); try done.
    unfold finish_valid. rewrite Hname, Hnumber. simpl.
    by rewrite bool_decide_eq_false_2.
Qed.

End SessionEdges.

Section Compositions.

Context {Tensor : Type}.
Variable embed : str → Tensor.
Variable cos_sim : Tensor → Tensor → float.
Variable translations : list Entry.

Local Abbreviation scorer := (compute_score_and_best embed cos_sim).
Local Abbreviation next := (step embed cos_sim translations).
Local Abbreviation play := (run embed cos_sim translations).

Implicit Types (ev : Event) (evs : list Event) (w : World) (entry : Entry).

(** X12: the score a submit records after a try is the one the try
    computed, for the answer and the record selected at the time of the
    try, whatever the answer box and the selection hold when the submit
    is clicked. *)
Theorem submit_records_score_of_try ev1 ev2 w entry1 :
  button ev1 = TryClick →
  japanese_to_entry translations !! selected_japanese ev1 = Some entry1 →
  blank (user_input ev1) = false →
  button ev2 = SubmitClick →
  selectable translations ev2 →
  submit_valid ev2 = true →
  ∃ best_score best_variant,
    scorer (user_input ev1) (all_variants entry1)
    = Some (best_score, best_variant)
    ∧ scores (session (next ev2 (next ev1 w)))
      = scores (session w) ++ [best_score].
Proof.
  intros Hb1 Hsel1 Hin1 Hb2 [entry2 Hsel2] Hv2.
  destruct (step_try_valid embed cos_sim translations ev1 w entry1 Hb1 Hsel1 Hin1)
    as (s & v & Hs & ->).
  match goal with
  | |- context [next ev2 ?w1] =>
      destruct (step_submit_ok embed cos_sim translations ev2 w1 entry2
                  Hb2 Hsel2 Hv2) as (s' & Hcached & ->)
  end.
  simpl in *. subst s'. by exists s, v.
Qed.

(** X13: a submit clears the cache, so the submit that follows it
    without a try in between records the score of its own answer against
    its own selected record. *)
Theorem second_submit_scores_afresh ev1 ev2 w entry2 :
  button ev1 = SubmitClick →
  selectable translations ev1 →
  submit_valid ev1 = true →
  button ev2 = SubmitClick →
  japanese_to_entry translations !! selected_japanese ev2 = Some entry2 →
  submit_valid ev2 = true →
  ∃ first best_score best_variant,
    scorer (user_input ev2) (all_variants entry2)
    = Some (best_score, best_variant)
    ∧ scores (session (next ev2 (next ev1 w)))
      = scores (session w) ++ [first; best_score].
Proof.
  intros Hb1 [entry1 Hsel1] Hv1 Hb2 Hsel2 Hv2.
  destruct (step_submit_ok embed cos_sim translations ev1 w entry1 Hb1 Hsel1 Hv1)
    as (s1 & _ & ->).
  match goal with
  | |- context [next ev2 ?w1] =>
      destruct (step_submit_ok embed cos_sim translations ev2 w1 entry2
                  Hb2 Hsel2 Hv2) as (s2 & Hfresh & ->)
  end.
  simpl in *. destruct Hfresh as [v2 Hs2].
  exists s1, s2, v2. by rewrite <- app_assoc.
Qed.

(** X14: a finish click never touches the cached score and variant: a
    score cached by a try before the session is finished is still there
    after the reset. *)
Theorem finish_keeps_cached_score ev w :
  button ev = FinishClick →
  last_score (session (next ev w)) = last_score (session w)
  ∧ last_variant (session (next ev w)) = last_variant (session w)
  ∧ phase (session (next ev w)) = phase (session w).
Proof.
  intros Hb.
  by destruct (step_finish embed cos_sim translations ev w Hb)
    as [->|(rows & _ & _ & _ & ->)].
Qed.

(** X15: a row that is written carries the clock reading, the name and
    the number exactly as typed (neither of them blank), and the number
    of recorded scores as its question count, which is at least one. *)
Theorem appended_row_fields ev w r :
  appends_row w (next ev w) r →
  row_timestamp r = now ev
  ∧ row_name r = student_name ev
  ∧ row_number r = student_number ev
  ∧ blank (row_name r) = false
  ∧ blank (row_number r) = false
  ∧ row_questions r = Z.of_nat (length (scores (session w)))
  ∧ 1 ≤ row_questions r.
Proof.
  intros (Hv & _ & ->)%appends_row_valid.
  unfold finish_valid in Hv.
  rewrite !andb_true_iff, !negb_true_iff, bool_decide_eq_false in Hv.
  destruct Hv as [[Hname Hnumber] Hscores]. simpl.
  split_and!; try done.
  destruct (scores (session w)); [done|]. simpl. lia.
Qed.

(** One run keeps the rows of the sheet and adds at most one, and only
    on a finish click. *)
Lemma step_rows ev w rows :
  sheet w = Some rows →
  ∃ more,
    sheet (next ev w) = Some (rows ++ more)
    ∧ (length more ≤ finish_clicks [ev])%nat.
Proof.
  intros Hsh. unfold finish_clicks. rewrite filter_cons, filter_nil.
  destruct (decide (button ev = FinishClick)) as [Hb|Hb].
  - destruct (step_finish embed cos_sim translations ev w Hb)
      as [->|(rows' & Hsh' & _ & _ & ->)].
    + exists []. rewrite app_nil_r. split; [done|simpl; lia].
    + rewrite Hsh in Hsh'. injection Hsh' as <-.
      exists [summary_row ev w]. split; [done|simpl; lia].
  - exists []. rewrite app_nil_r, step_sheet by done. split; [done|simpl; lia].
Qed.

Lemma finish_clicks_cons ev evs :
  finish_clicks (ev :: evs) = (finish_clicks [ev] + finish_clicks evs)%nat.
Proof.
  unfold finish_clicks. rewrite !filter_cons, filter_nil.
  by destruct (decide (button ev = FinishClick)).
Qed.

(** X16: the sheet is append-only. After any sequence of runs the rows
    that were there come first and unchanged, and at most one row per
    finish click was added. *)
Theorem sheet_is_append_only evs w rows :
  sheet w = Some rows →
  ∃ more,
    sheet (play evs w) = Some (rows ++ more)
    ∧ (length more ≤ finish_clicks evs)%nat.
Proof.
  revert w rows. induction evs as [|ev evs IH]; intros w rows Hsh.
  { exists []. by rewrite app_nil_r. }
  destruct (step_rows ev w rows Hsh) as (more1 & Hsh1 & Hlen1).
  destruct (IH (next ev w) _ Hsh1) as (more2 & Hsh2 & Hlen2).
  exists (more1 ++ more2). rewrite run_cons, Hsh2, app_assoc.
  split; [done|]. rewrite length_app, finish_clicks_cons. lia.
Qed.

(** Without a sheet one run keeps [scores] or adds one value at its
    end. *)
Lemma step_without_sheet ev w :
  sheet w = None →
  sheet (next ev w) = None
  ∧ scores (session w) `prefix_of` scores (session (next ev w)).
Proof.
  intros Hsh. destruct (button ev) eqn:Hb.
  - by rewrite step_no_click.
  - rewrite step_sheet, step_try_scores by (done || congruence). done.
  - rewrite step_sheet by congruence. split; [done|].
    destruct (step_submit embed cos_sim translations ev w Hb)
      as [[->|[v ->]] _]; [done|]. by apply prefix_app_r.
  - destruct (step_finish embed cos_sim translations ev w Hb)
      as [->|(rows & Hrows & _)]; [done|congruence].
Qed.

(** X17: when the sheet is unavailable it stays unavailable, and no
    recorded score is ever lost: [scores] only grows at its end,
    whatever is clicked and however often the finish is tried. *)
Theorem no_sheet_no_loss evs w :
  sheet w = None →
  sheet (run embed cos_sim translations evs w) = None
  ∧ scores (session w)
    `prefix_of` scores (session (run embed cos_sim translations evs w)).
Proof.
  revert w. induction evs as [|ev evs IH]; intros w Hsh; [done|].
  destruct (step_without_sheet ev w Hsh) as [Hsh1 Hpre1].
  destruct (IH (next ev w) Hsh1) as [Hsh2 Hpre2].
  rewrite run_cons. split; [done|]. by etrans.
Qed.

(** One run adds at most one attempt, on a try click only, and never
    makes the count negative. *)
Lemma step_attempted_bounds ev w :
  0 ≤ attempted_questions (session w) →
  0 ≤ attempted_questions (session (next ev w))
  ≤ attempted_questions (session w) + Z.of_nat (try_clicks [ev]).
Proof.
  intros Hpos. unfold try_clicks. rewrite filter_cons, filter_nil.
  destruct (japanese_to_entry translations !! selected_japanese ev)
    as [entry|] eqn:Hsel.
  2: { rewrite script_not_selected by done.
       destruct (decide _); simpl; lia. }
  destruct (button ev) eqn:Hb.
  - rewrite step_no_click by done. rewrite decide_False by done. simpl. lia.
  - rewrite step_try_attempted by (done || by eexists).
    rewrite decide_True by done. destruct (blank _); simpl; lia.
  - destruct (step_submit embed cos_sim translations ev w Hb) as [_ ->].
    rewrite decide_False by done. simpl. lia.
  - rewrite decide_False by done.
    destruct (step_finish embed cos_sim translations ev w Hb)
      as [->|(rows & _ & _ & _ & ->)]; simpl; lia.
Qed.

Lemma try_clicks_cons ev evs :
  try_clicks (ev :: evs) = (try_clicks [ev] + try_clicks evs)%nat.
Proof.
  unfold try_clicks. rewrite !filter_cons, filter_nil.
  by destruct (decide (button ev = TryClick)).
Qed.

Lemma run_attempted_bounds evs w :
  0 ≤ attempted_questions (session w) →
  0 ≤ attempted_questions (session (play evs w))
  ≤ attempted_questions (session w) + Z.of_nat (try_clicks evs).
Proof.
  revert w. induction evs as [|ev evs IH]; intros w Hpos.
  { simpl. unfold try_clicks. simpl. lia. }
  pose proof (step_attempted_bounds ev w Hpos) as H1.
  pose proof (IH (next ev w) (proj1 H1)) as H2.
  rewrite run_cons, try_clicks_cons. lia.
Qed.

(** X18: from the start of a session the count of attempts is never
    negative and never exceeds the number of try clicks made, whichever
    events occur, finishes and unselectable ones included. *)
Theorem attempted_within_try_clicks evs sh :
  0 ≤ attempted_questions (session (play evs (start sh)))
  ≤ Z.of_nat (try_clicks evs).
Proof.
  pose proof (run_attempted_bounds evs (start sh)) as H. simpl in H. lia.
Qed.

(** X19: a finish whose append raised can be retried: the state is as
    it was, and the finish that follows, once the append returns, writes
    the summary of the very same scores after the rows already there. *)
Theorem finish_retry_writes_summary ev ev' w rows e :
  button ev = FinishClick →
  append_error ev = Some e →
  button ev' = FinishClick →
  selectable translations ev' →
  finish_valid ev' w = true →
  sheet w = Some rows →
  append_error ev' = None →
  sheet (next ev' (next ev w)) = Some (rows ++ [summary_row ev' w])
  ∧ scores (session (next ev' (next ev w))) = [].
Proof.
  intros Hb He Hb' Hsel' Hv' Hsh He'.
  assert (next ev w = w) as ->.
  { destruct (step_finish embed cos_sim translations ev w Hb)
      as [?|(rows' & _ & Hnone & _)]; [done|congruence]. }
  by rewrite (step_finish_ok embed cos_sim translations ev' w rows).
Qed.

End Compositions.

(** ** Where recorded scores come from *)

Section Provenance.

Context {Tensor : Type}.
Variable embed : str → Tensor.
Variable cos_sim : Tensor → Tensor → float.
Variable translations : list Entry.

Local Abbreviation scorer := (compute_score_and_best embed cos_sim).
Local Abbreviation next := (step embed cos_sim translations).
Local Abbreviation play := (run embed cos_sim translations).
Local Abbreviation reference := (reference_score embed cos_sim translations).

Implicit Types (ev : Event) (evs : list Event) (w : World) (entry : Entry).

(** The recorded scores and the cached one are reference scores. *)
Definition all_reference w : Prop :=
  Forall reference (scores (session w))
  ∧ ∀ s, last_score (session w) = Some s → reference s.

Lemma scorer_reference ev entry best_score best_variant :
  japanese_to_entry translations !! selected_japanese ev = Some entry →
  scorer (user_input ev) (all_variants entry)
  = Some (best_score, best_variant) →
  reference best_score.
Proof.
  intros [Hin _]%lookup_from_file (_ & variant & Hv & ->)%scorer_elements.
  by exists (user_input ev), entry, variant.
Qed.

Lemma step_all_reference ev w : all_reference w → all_reference (next ev w).
Proof.
  intros [Hscores Hcached].
  destruct (japanese_to_entry translations !! selected_japanese ev)
    as [entry|] eqn:Hsel; [|by rewrite script_not_selected].
  destruct (button ev) eqn:Hb.
  - by rewrite step_no_click.
  - destruct (blank (user_input ev)) eqn:Hin.
    + rewrite (step_selected _ _ _ _ _ _ Hsel), Hb.
      by rewrite try_translation_blank.
    + destruct (step_try_valid embed cos_sim translations ev w entry Hb Hsel Hin)
        as (s & v & Hs & ->).
      split; [done|]. simpl. intros ? [= <-]. by eapply scorer_reference.
  - destruct (submit_valid ev) eqn:Hv.
    + destruct (step_submit_ok embed cos_sim translations ev w entry Hb Hsel Hv)
        as (s & Hs & ->).
      split; [|done]. simpl. apply Forall_app. split; [done|].
      repeat constructor.
      destruct (last_score (session w)) as [cached|].
      * subst s. by apply Hcached.
      * destruct Hs as [v Hs]. by eapply scorer_reference.
    + rewrite (step_selected _ _ _ _ _ _ Hsel), Hb.
      by destruct (submit_translation_invalid embed cos_sim entry ev w Hv)
        as [text ->].
  - destruct (step_finish embed cos_sim translations ev w Hb)
      as [->|(rows & _ & _ & _ & ->)]; [done|].
    split; [constructor|done].
Qed.

(** X20: every score a session records is the similarity of some text
    to a variant (the primary translation or an alternative) of a record
    of the file; nothing else ever enters [scores]. *)
Theorem recorded_scores_are_reference_scores evs sh :
  Forall reference (scores (session (play evs (start sh)))).
Proof.
  enough (∀ w, all_reference w → all_reference (play evs w)) as Hinv.
  { apply Hinv. split; [constructor|done]. }
  induction evs as [|ev evs IH]; intros w Hw; [done|].
  rewrite run_cons. by apply IH, step_all_reference.
Qed.

End Provenance.

(** ** Connecting to the spreadsheet *)

Section Connection.

Import Sheets.

Context {Creds Info Client Worksheet : Type}.

Implicit Types env : Deployment Creds Info Client Worksheet.

(** X21: the local file comes first. When the directory listing holds
    [credentials.json], neither the secrets nor the credentials built
    from them are consulted: two deployments that differ in them only
    give the same result. *)
Theorem local_credentials_take_precedence env env' names :
  listdir env = Returned names →
  lit "credentials.json" ∈ names →
  listdir env' = listdir env →
  from_service_account_file env' = from_service_account_file env →
  authorize env' = authorize env →
  open_by_key env' = open_by_key env →
  get_gsheet env' = get_gsheet env.
Proof.
  intros Hls Hin Hls' Hfile Hauth Hopen.
  unfold get_gsheet, get_gsheet_try, connect.
  rewrite Hls', Hls, Hfile, Hauth, Hopen. simpl.
  by rewrite bool_decide_eq_true_2.
Qed.

(** X22: a missing sheet is never silent. [get_gsheet] returns a sheet
    and displays nothing, or returns [None] and displays exactly one
    warning or error; it displays the warning only when the listing has
    no [credentials.json] and the secrets hold no service account. *)
Theorem get_gsheet_reports_failure env :
  match fst (get_gsheet env) with
  | Some _ => snd (get_gsheet env) = []
  | None =>
      (∃ text, snd (get_gsheet env) = [Error text])
      ∨ (snd (get_gsheet env)
         = [Warning (lit "Google credentials not configured.")]
         ∧ secrets_get env = Returned None
         ∧ ∃ names, listdir env = Returned names
                    ∧ lit "credentials.json" ∉ names)
  end.
Proof.
  unfold get_gsheet, get_gsheet_try, connect.
  destruct (listdir env) as [names|e]; simpl; [|eauto].
  case_bool_decide as Hin.
  - destruct (from_service_account_file env) as [creds|e]; simpl; [|eauto].
    destruct (authorize env creds) as [client|e]; simpl; [|eauto].
    destruct (open_by_key env client) as [worksheet|e]; simpl; eauto.
  - destruct (secrets_get env) as [[info|]|e]; simpl; [| |eauto].
    + destruct (from_service_account_info env info) as [creds|e];
        simpl; [|eauto].
      destruct (authorize env creds) as [client|e]; simpl; [|eauto].
      destruct (open_by_key env client) as [worksheet|e]; simpl; eauto.
    + right. eauto.
Qed.

End Connection.

Lemma local_credentials_take_precedence_refused :
  Sheets.get_gsheet DemoSheets.refused_no_secrets
  = Sheets.get_gsheet DemoSheets.refused.
Proof.
  apply (local_credentials_take_precedence DemoSheets.refused
           DemoSheets.refused_no_secrets
           [lit "main.py"; lit "credentials.json"]).
  - reflexivity.
  - set_solver.
  - reflexivity.
  - reflexivity.
  - reflexivity.
  - reflexivity.
Defined.

(** ** The further properties on the small instance *)

Lemma try_caches_score_rice :
  ∃ best_score best_variant,
    compute_score_and_best Demo.embed Demo.cos_sim
      (user_input (Demo.click TryClick (lit "I eat rice")))
      (all_variants Demo.rice)
    = Some (best_score, best_variant)
    ∧ last_score (session (Demo.next (Demo.click TryClick (lit "I eat rice"))
                             (start None)))
      = Some best_score
    ∧ last_variant (session (Demo.next (Demo.click TryClick (lit "I eat rice"))
                               (start None)))
      = Some best_variant
    ∧ attempted_questions
        (session (Demo.next (Demo.click TryClick (lit "I eat rice"))
                    (start None)))
      = attempted_questions (session (start None)) + 1
    ∧ scores (session (Demo.next (Demo.click TryClick (lit "I eat rice"))
                         (start None)))
      = scores (session (start None))
    ∧ sheet (Demo.next (Demo.click TryClick (lit "I eat rice")) (start None))
      = sheet (start None)
    ∧ phase (session (Demo.next (Demo.click TryClick (lit "I eat rice"))
                        (start None)))
      = Scored.
Proof.
  apply (try_caches_score Demo.embed Demo.cos_sim Demo.translations
           (Demo.click TryClick (lit "I eat rice")) (start None) Demo.rice);
    vm_compute; reflexivity.
Defined.

Lemma try_rejected_iff_blank_spaces :
  Demo.next (Demo.click TryClick Demo.spaces) (start None) = start None
  ↔ Forall (λ c, is_space c = true)
      (user_input (Demo.click TryClick Demo.spaces)).
Proof.
  apply (try_rejected_iff_blank Demo.embed Demo.cos_sim Demo.translations
           (Demo.click TryClick Demo.spaces) (start None)).
  - reflexivity.
  - exists Demo.rice. vm_compute. reflexivity.
Defined.

Lemma submit_rejected_iff_blank_field_spaces :
  Demo.next (Demo.click SubmitClick Demo.spaces) (start None) = start None
  ↔ Forall (λ c, is_space c = true)
      (student_name (Demo.click SubmitClick Demo.spaces))
    ∨ Forall (λ c, is_space c = true)
        (student_number (Demo.click SubmitClick Demo.spaces))
    ∨ Forall (λ c, is_space c = true)
        (user_input (Demo.click SubmitClick Demo.spaces)).
Proof.
  apply (submit_rejected_iff_blank_field Demo.embed Demo.cos_sim
           Demo.translations (Demo.click SubmitClick Demo.spaces) (start None)).
  - reflexivity.
  - exists Demo.rice. vm_compute. reflexivity.
Defined.

Lemma finish_appends_iff_lesson :
  (∃ r, appends_row (Demo.run Demo.lesson (Some []))
          (Demo.next (Demo.click FinishClick [])
             (Demo.run Demo.lesson (Some []))) r)
  ↔ blank (student_name (Demo.click FinishClick [])) = false
    ∧ blank (student_number (Demo.click FinishClick [])) = false
    ∧ scores (session (Demo.run Demo.lesson (Some []))) ≠ []
    ∧ is_Some (sheet (Demo.run Demo.lesson (Some [])))
    ∧ append_error (Demo.click FinishClick []) = None.
Proof.
  apply (finish_appends_iff Demo.embed Demo.cos_sim Demo.translations
           (Demo.click FinishClick []) (Demo.run Demo.lesson (Some []))).
  - reflexivity.
  - exists Demo.rice. vm_compute. reflexivity.
Defined.

(** The answer is changed between the try and the submit: the score of
    the try is recorded. *)
Lemma submit_records_score_of_try_rice :
  ∃ best_score best_variant,
    compute_score_and_best Demo.embed Demo.cos_sim
      (user_input (Demo.click TryClick (lit "I eat rice")))
      (all_variants Demo.rice)
    = Some (best_score, best_variant)
    ∧ scores (session (Demo.next (Demo.click SubmitClick (lit "rice"))
                         (Demo.next (Demo.click TryClick (lit "I eat rice"))
                            (start None))))
      = scores (session (start None)) ++ [best_score].
Proof.
  apply (submit_records_score_of_try Demo.embed Demo.cos_sim Demo.translations
           (Demo.click TryClick (lit "I eat rice"))
           (Demo.click SubmitClick (lit "rice")) (start None) Demo.rice);
    try (vm_compute; reflexivity).
  exists Demo.rice. vm_compute. reflexivity.
Defined.

Lemma second_submit_scores_afresh_rice :
  ∃ first best_score best_variant,
    compute_score_and_best Demo.embed Demo.cos_sim
      (user_input (Demo.click SubmitClick (lit "I eat rice")))
      (all_variants Demo.rice)
    = Some (best_score, best_variant)
    ∧ scores (session (Demo.next (Demo.click SubmitClick (lit "I eat rice"))
                         (Demo.next (Demo.click SubmitClick (lit "rice"))
                            (start None))))
      = scores (session (start None)) ++ [first; best_score].
Proof.
  apply (second_submit_scores_afresh Demo.embed Demo.cos_sim Demo.translations
           (Demo.click SubmitClick (lit "rice"))
           (Demo.click SubmitClick (lit "I eat rice")) (start None) Demo.rice);
    try (vm_compute; reflexivity).
  exists Demo.rice. vm_compute. reflexivity.
Defined.

(** A try after the lesson, then a finish: the cached score 1 outlives
    the reset. *)
Lemma finish_keeps_cached_score_lesson :
  last_score
    (session (Demo.next (Demo.click FinishClick [])
                (Demo.run (Demo.lesson ++ [Demo.click TryClick (lit "I eat rice")])
                   (Some []))))
  = last_score
      (session (Demo.run (Demo.lesson ++ [Demo.click TryClick (lit "I eat rice")])
                  (Some [])))
  ∧ last_variant
      (session (Demo.next (Demo.click FinishClick [])
                  (Demo.run (Demo.lesson ++ [Demo.click TryClick (lit "I eat rice")])
                     (Some []))))
    = last_variant
        (session (Demo.run (Demo.lesson ++ [Demo.click TryClick (lit "I eat rice")])
                    (Some [])))
  ∧ phase
      (session (Demo.next (Demo.click FinishClick [])
                  (Demo.run (Demo.lesson ++ [Demo.click TryClick (lit "I eat rice")])
                     (Some []))))
    = phase
        (session (Demo.run (Demo.lesson ++ [Demo.click TryClick (lit "I eat rice")])
                    (Some []))).
Proof.
  apply (finish_keeps_cached_score Demo.embed Demo.cos_sim Demo.translations
           (Demo.click FinishClick [])). reflexivity.
Defined.

Lemma appended_row_fields_lesson :
  row_timestamp (summary_row (Demo.click FinishClick [])
                   (Demo.run Demo.lesson (Some [])))
  = now (Demo.click FinishClick [])
  ∧ row_name (summary_row (Demo.click FinishClick [])
                (Demo.run Demo.lesson (Some [])))
    = student_name (Demo.click FinishClick [])
  ∧ row_number (summary_row (Demo.click FinishClick [])
                  (Demo.run Demo.lesson (Some [])))
    = student_number (Demo.click FinishClick [])
  ∧ blank (row_name (summary_row (Demo.click FinishClick [])
                       (Demo.run Demo.lesson (Some []))))
    = false
  ∧ blank (row_number (summary_row (Demo.click FinishClick [])
                         (Demo.run Demo.lesson (Some []))))
    = false
  ∧ row_questions (summary_row (Demo.click FinishClick [])
                     (Demo.run Demo.lesson (Some [])))
    = Z.of_nat (length (scores (session (Demo.run Demo.lesson (Some [])))))
  ∧ 1 ≤ row_questions (summary_row (Demo.click FinishClick [])
                         (Demo.run Demo.lesson (Some []))).
Proof.
  apply (appended_row_fields Demo.embed Demo.cos_sim Demo.translations
           (Demo.click FinishClick []) (Demo.run Demo.lesson (Some []))).
  exists []. split; vm_compute; reflexivity.
Defined.

Lemma sheet_is_append_only_lesson :
  ∃ more,
    sheet (Demo.run (Demo.lesson ++ [Demo.click FinishClick []]) (Some []))
    = Some ([] ++ more)
    ∧ (length more
       ≤ finish_clicks (Demo.lesson ++ [Demo.click FinishClick []]))%nat.
Proof.
  apply (sheet_is_append_only Demo.embed Demo.cos_sim Demo.translations
           (Demo.lesson ++ [Demo.click FinishClick []]) (start (Some [])) []).
  reflexivity.
Defined.

Lemma no_sheet_no_loss_lesson :
  sheet (Demo.run (Demo.lesson ++ [Demo.click FinishClick []]) None) = None
  ∧ scores (session (start None))
    `prefix_of`
    scores (session (Demo.run (Demo.lesson ++ [Demo.click FinishClick []])
                       None)).
Proof.
  apply (no_sheet_no_loss Demo.embed Demo.cos_sim Demo.translations
           (Demo.lesson ++ [Demo.click FinishClick []]) (start None)).
  reflexivity.
Defined.

(** The append raises once and returns at the second click. *)
Lemma finish_retry_writes_summary_lesson :
  sheet (Demo.next (Demo.click FinishClick [])
           (Demo.next
              {| button := FinishClick;
                 student_name := lit "Aiko";
                 student_number := lit "s-17";
                 selected_japanese := japanese Demo.rice;
                 user_input := [];
                 now := lit "2024-05-01 09:29:00";
                 append_error := Some (lit "APIError") |}
              (Demo.run Demo.lesson (Some []))))
  = Some ([] ++ [summary_row (Demo.click FinishClick [])
                   (Demo.run Demo.lesson (Some []))])
  ∧ scores
      (session
         (Demo.next (Demo.click FinishClick [])
            (Demo.next
               {| button := FinishClick;
                  student_name := lit "Aiko";
                  student_number := lit "s-17";
                  selected_japanese := japanese Demo.rice;
                  user_input := [];
                  now := lit "2024-05-01 09:29:00";
                  append_error := Some (lit "APIError") |}
               (Demo.run Demo.lesson (Some [])))))
    = [].
Proof.
  apply (finish_retry_writes_summary Demo.embed Demo.cos_sim Demo.translations
           {| button := FinishClick;
              student_name := lit "Aiko";
              student_number := lit "s-17";
              selected_japanese := japanese Demo.rice;
              user_input := [];
              now := lit "2024-05-01 09:29:00";
              append_error := Some (lit "APIError") |}
           (Demo.click FinishClick []) (Demo.run Demo.lesson (Some []))
           [] (lit "APIError"));
    try (vm_compute; reflexivity).
  exists Demo.rice. vm_compute. reflexivity.
Defined.

(** The two reductions on the zeros of opposite sign: [argmax] points at
    the first, [max] returns the second, and the two are different
    floats that compare equal. *)
Example reductions_on_signed_zeros :
  Torch.argmax [zero; neg_zero] = Some 0%nat
  ∧ Torch.max [zero; neg_zero] = Some neg_zero
  ∧ zero ≠ neg_zero
  ∧ (zero =? neg_zero)%float = true.
Proof.
  split_and!; try (vm_compute; reflexivity).
  intros H. apply (f_equal Prim2SF) in H. vm_compute in H. discriminate H.
Qed.
